(** * Swap-quote aggregation: [src/core/swap/swap-api.js]

    A shallow embedding of [fetchSwapQuote], [pickBestQuote],
    [pickBestError], [rankError] and [upgradeQuote], together with the
    properties of the quote comparator, the error ranker, the option
    upgrade, the plugin selection and the clean-up of unused quotes. *)

From stdpp Require Import numbers gmap strings list fin_maps.
From Stdlib Require Import ZArith Permutation.
From Stdlib Require Qcanon.

Local Open Scope Z_scope.
#[local] Set Warnings "-clear-no-such-hyp".

(** ** JavaScript values that the code throws *)

(** Modelled from the spec: the error classes and the [errorNames] table
    of [types/types.js], which is not among the sources.  The
    specification's FailureKind is a "tagged variant over
    InsufficientFunds, PendingFunds, BelowLimit(min: decimal),
    AboveLimit(max: decimal), PermissionDenied, UnsupportedPair,
    Unknown"; the constructors carry the names [rankError] tests, and
    [OtherError] stands for every other value of [error.name]. *)
Inductive FailureKind :=
| InsufficientFundsError
| PendingFundsError
| SwapBelowLimitError (nativeMin : Z)
| SwapAboveLimitError (nativeMax : Z)
| SwapPermissionError
| SwapCurrencyError
| OtherError (name : string).

(** An error object rejected by a swap plugin: its class (the [name]
    property, with the amounts the limit errors carry) and its message. *)
Record SwapError := {
  kind : FailureKind;
  message : string
}.

(** What a [throw] (or a rejected promise) carries.  A plugin may reject
    with [null] or [undefined], hence the [option]. *)
Inductive exn :=
| TypeError (msg : string)
| AssertionError (msg : string)
| Error (msg : string)
| Rejection (reason : option SwapError).

Inductive result (A : Type) :=
| Ok (a : A)
| Throw (e : exn).
Arguments Ok {A} a.
Arguments Throw {A} e.

(** Exceptions propagate through sequencing: stdpp's [x ← r; k]. *)
#[global] Instance result_bind : MBind result := λ A B k r,
  match r with
  | Ok a => k a
  | Throw e => Throw e
  end.

(** ** The three [biggystring] functions the module imports

    [biggystring] is an npm dependency (string arithmetic on top of
    bn.js).  Native amounts are decimal strings of integers, modelled as
    [Z].  [div(x, y, precision = 0, base = 10)] is called with two
    arguments only, so it runs with its default precision of zero
    digits: both strings are parsed as big integers and the result is
    the integer quotient (bn.js [div], rounding towards zero), which
    asserts that the divisor is not zero.  [gt] and [lt] compare the two
    numbers. *)
Module biggystring.

Definition div (x y : Z) : result Z :=
  if decide (y = 0) then Throw (AssertionError "Assertion failed")
  else Ok (Z.quot x y).

Definition gt (x y : Z) : bool := bool_decide (y < x).

Definition lt (x y : Z) : bool := bool_decide (x < y).

End biggystring.

(** ** [Array.prototype.reduce] without an initial value *)

Fixpoint reduce_from {A} (f : A → A → result A) (acc : A) (l : list A) : result A :=
  match l with
  | [] => Ok acc
  | b :: l' => acc' ← f acc b; reduce_from f acc' l'
  end.

Definition reduce {A} (f : A → A → result A) (l : list A) : result A :=
  match l with
  | [] => Throw (TypeError "Reduce of empty array with no initial value")
  | a :: l' => reduce_from f a l'
  end.

(** ** Reading a property of a plain object

    The maps of the module ([disabled], [promoCodes], [swapPlugins],
    [swapSettings]) are plain objects: [obj[key]] finds the object's own
    entry, and otherwise what every object inherits from
    [Object.prototype] under that name, a function (or the prototype
    itself, for [__proto__]), which is truthy, not [null], and has no
    property of the module's data. *)

Definition objectPrototype : list string :=
  [ "constructor"; "hasOwnProperty"; "isPrototypeOf"; "propertyIsEnumerable";
    "toLocaleString"; "toString"; "valueOf"; "__proto__";
    "__defineGetter__"; "__defineSetter__"; "__lookupGetter__";
    "__lookupSetter__" ].

(** [key] is inherited by an object that has no own entry for it. *)
Definition inherited (key : string) : bool := bool_decide (key ∈ objectPrototype).

(** ** Data model *)

(** Modelled from the spec: the type [EdgeSwapPluginQuote] of
    [types/types.js], which is not among the sources; the specification's
    RawQuote, "providerId, fromAmount, toAmount, isEstimate?: bool
    (default true), quoteId?" with amounts that "are integer
    smallest-unit values".  The fields are those the module reads, under
    the names it reads them by; [pluginName] is the legacy identifier
    and [pluginId] the modern one, which may be absent.  The [close]
    method is part of the environment of [fetchSwapQuote] below. *)
Record EdgeSwapPluginQuote := {
  pluginName : string;
  pluginId : option string;
  isEstimate : option bool;
  fromNativeAmount : Z;
  toNativeAmount : Z;
  quoteId : option string
}.

(** Quotes are objects: an array of quotes holds references, the fields
    are read through the store, and [!==] compares references. *)
Definition ref := nat.
Bind Scope nat_scope with ref.
Definition store := ref → EdgeSwapPluginQuote.

(** Modelled from the spec: the types [EdgeSwapInfo] and
    [EdgeSwapPlugin] of [types/types.js], not among the sources; the
    specification's provider capability with its "static metadata
    statusUriTemplate?".  The [fetchSwapQuote] method is part of the
    environment of [fetchSwapQuote] below. *)
Record EdgeSwapInfo := {
  quoteUri : option string
}.

Record EdgeSwapPlugin := {
  swapInfo : EdgeSwapInfo
}.

(** The object literal that [upgradeQuote] returns: the spread of the
    raw quote, with [isEstimate] and [pluginId] resolved and [quoteUri]
    added. *)
Record EdgeSwapQuote := {
  quote_spread : EdgeSwapPluginQuote;
  quote_isEstimate : bool;
  quote_pluginId : string;
  quote_quoteUri : option string
}.

(** ** The quote comparator *)

Section Comparator.
Variable σ : store.
Variable preferPluginId : option string.
Variable promoCodes : gmap string string.

(** [promoCodes[q.pluginName] != null]: an own promo code, or a name
    that the object inherits. *)
Definition hasPromo (q : ref) : bool :=
  match promoCodes !! pluginName (σ q) with
  | Some _ => true
  | None => inherited (pluginName (σ q))
  end.

(** [q.pluginName === preferPluginId] *)
Definition isPreferred (q : ref) : bool :=
  bool_decide (preferPluginId = Some (pluginName (σ q))).

(** The callback of the [reduce] in [pickBestQuote]. *)
Definition pickBestQuote_step (a b : ref) : result ref :=
  if isPreferred a then Ok a
  else if isPreferred b then Ok b
  else
    let aHasPromo := hasPromo a in
    let bHasPromo := hasPromo b in
    if aHasPromo && negb bHasPromo then Ok b
    else if negb aHasPromo && bHasPromo then Ok a
    else
      let aIsEstimate := default true (isEstimate (σ a)) in
      let bIsEstimate := default true (isEstimate (σ b)) in
      if aIsEstimate && negb bIsEstimate then Ok b
      else if negb aIsEstimate && bIsEstimate then Ok a
      else
        aRate ← biggystring.div (toNativeAmount (σ a)) (fromNativeAmount (σ a));
        bRate ← biggystring.div (toNativeAmount (σ b)) (fromNativeAmount (σ b));
        Ok (if biggystring.gt bRate aRate then b else a).

Definition pickBestQuote (quotes : list ref) : result ref :=
  reduce pickBestQuote_step quotes.

End Comparator.

(** ** The error ranker *)

Definition rankError (error : option SwapError) : Z :=
  match error with
  | None => 0
  | Some e =>
      match kind e with
      | InsufficientFundsError => 6
      | PendingFundsError => 6
      | SwapBelowLimitError _ => 5
      | SwapAboveLimitError _ => 4
      | SwapPermissionError => 3
      | SwapCurrencyError => 2
      | OtherError _ => 1
      end
  end.

(** The callback of the [reduce] in [pickBestError].  Reading [a.name]
    when [a] is [null] is a [TypeError].  In the two limit branches the
    ranks are equal, so [b] is of the same class as [a] and carries the
    amount; the other arm of the inner [match] is never reached. *)
Definition pickBestError_step (a b : option SwapError) : result (option SwapError) :=
  let diff := rankError a - rankError b in
  if decide (0 < diff) then Ok a
  else if decide (diff < 0) then Ok b
  else
    match a with
    | None => Throw (TypeError "Cannot read property 'name' of null")
    | Some ea =>
        match kind ea with
        | SwapBelowLimitError aMin =>
            match b with
            | Some {| kind := SwapBelowLimitError bMin |} =>
                Ok (if biggystring.lt aMin bMin then a else b)
            | _ => Throw (TypeError "nativeMin is not a string")
            end
        | SwapAboveLimitError aMax =>
            match b with
            | Some {| kind := SwapAboveLimitError bMax |} =>
                Ok (if biggystring.gt aMax bMax then a else b)
            | _ => Throw (TypeError "nativeMax is not a string")
            end
        | _ => Ok a
        end
    end.

Definition pickBestError (errors : list (option SwapError)) : result (option SwapError) :=
  reduce pickBestError_step errors.

(** ** The quote normalizer *)

(** [swapPlugins[pluginId]] is the plugin for an id of the registry.
    For another id it is [undefined], whose destructuring is a
    [TypeError], unless the id is a name the registry object inherits:
    then it is a function, [swapInfo] is [undefined], and reading
    [swapInfo.quoteUri] is a [TypeError] that the [&&] only reaches when
    the quote has a [quoteId]. *)
Definition upgradeQuote (quote : EdgeSwapPluginQuote)
    (swapPlugins : gmap string EdgeSwapPlugin) : result EdgeSwapQuote :=
  let isEstimate := default true (isEstimate quote) in
  let pluginId := default (pluginName quote) (pluginId quote) in
  match swapPlugins !! pluginId with
  | None =>
      if inherited pluginId then
        match quoteId quote with
        | Some _ => Throw (TypeError "Cannot read property 'quoteUri' of undefined")
        | None =>
            Ok {| quote_spread := quote;
                  quote_isEstimate := isEstimate;
                  quote_pluginId := pluginId;
                  quote_quoteUri := None |}
        end
      else Throw (TypeError "Cannot destructure property 'swapInfo' of undefined")
  | Some plugin =>
      let quoteUri :=
        match quoteId quote, quoteUri (swapInfo plugin) with
        | Some id, Some uri => Some (uri +:+ id)
        | _, _ => None
        end in
      Ok {| quote_spread := quote;
            quote_isEstimate := isEstimate;
            quote_pluginId := pluginId;
            quote_quoteUri := quoteUri |}
  end.

(** ** Request options *)

(** Modelled from the spec: the entries of the deprecated [opts.plugins]
    map, typed in [types/types.js] (not among the sources); the
    specification's "legacy nested map ID to disabled?: bool,
    promoCode?: string". *)
Record EdgeSwapPluginOptions := {
  plugin_disabled : option bool;
  plugin_promoCode : option string
}.

(** Modelled from the spec: the type [EdgeSwapRequestOptions] of
    [types/types.js], not among the sources; the specification's
    RequestOptions, "preferredProviderId?: ID, disabled: map(ID to
    bool), promoCodes: map(ID to string)".  Every field may be absent,
    as the defaults in the destructuring of [opts] show. *)
Record EdgeSwapRequestOptions := {
  opt_preferPluginId : option string;
  opt_disabled : option (gmap string bool);
  opt_promoCodes : option (gmap string string);
  opt_plugins : option (gmap string EdgeSwapPluginOptions)
}.

(** JavaScript truthiness of a possibly missing boolean. *)
Definition truthy (v : option bool) : bool := default false v.

(** The truthiness of [disabled[pluginId]]: the own entry when there is
    one, otherwise whether the name is inherited. *)
Definition isDisabled (disabled : gmap string bool) (pluginId : string) : bool :=
  match disabled !! pluginId with
  | Some flag => flag
  | None => inherited pluginId
  end.

(** The body of the loop under "Upgrade deprecated options". *)
Definition upgradeOptions_step (id : string) (entry : EdgeSwapPluginOptions)
    (maps : gmap string bool * gmap string string) : gmap string bool * gmap string string :=
  let disabled := if truthy (plugin_disabled entry) then <[id := true]> maps.1 else maps.1 in
  let promoCodes :=
    match plugin_promoCode entry with
    | Some code => <[id := code]> maps.2
    | None => maps.2
    end in
  (disabled, promoCodes).

(** The destructuring of [opts] with its two [= {}] defaults, followed by
    the loop over [Object.keys(opts.plugins)]. *)
Definition upgradeOptions (opts : EdgeSwapRequestOptions)
    : gmap string bool * gmap string string :=
  let disabled := default ∅ (opt_disabled opts) in
  let promoCodes := default ∅ (opt_promoCodes opts) in
  match opt_plugins opts with
  | None => (disabled, promoCodes)
  | Some plugins => map_fold upgradeOptions_step (disabled, promoCodes) plugins
  end.

(** The loop assigns into the very objects [opts.disabled] and
    [opts.promoCodes] when the caller supplied them (a missing one is
    replaced by a fresh [{}] that the caller never sees): this is the
    caller's [opts] object once the loop has run. *)
Definition opts_after_upgrade (opts : EdgeSwapRequestOptions) : EdgeSwapRequestOptions :=
  {| opt_preferPluginId := opt_preferPluginId opts;
     opt_disabled := (λ _, (upgradeOptions opts).1) <$> opt_disabled opts;
     opt_promoCodes := (λ _, (upgradeOptions opts).2) <$> opt_promoCodes opts;
     opt_plugins := opt_plugins opts |}.

(** ** [fetchSwapQuote] *)

(** Modelled from the spec: the account's swap settings of a plugin
    (the redux state is not among the sources), a "per-provider boolean
    enable flag" with "default enabled = true when unspecified". *)
Record SwapSettings := {
  enabled : option bool
}.

(** How a promise settles. *)
Inductive settled := Fulfilled | Rejected.

(** [promise.catch(() => undefined)]: the chained promise is fulfilled
    with [undefined] whether or not [promise] rejects. *)
Definition catch_undefined (p : settled) : settled :=
  match p with
  | Fulfilled => Fulfilled
  | Rejected => Fulfilled
  end.

Section FetchSwapQuote.
(** The request and the per-plugin user settings are passed through
    untouched. *)
Context {EdgeSwapRequest JsonObject : Type}.

(** A call of a plugin's [fetchSwapQuote], which is also the promise
    it returns. *)
Record FetchCall := {
  call_pluginId : string;
  call_request : EdgeSwapRequest;
  call_userSettings : option JsonObject;
  call_promoCode : option string
}.

(** What the function does to the outside world, in order.  A [Close]
    records how the promise chained on [quote.close()] settles. *)
Inductive event :=
| Fetch (call : FetchCall)
| Close (quote : ref) (chained : settled).

Record AccountState := {
  swapSettings : gmap string SwapSettings;
  userSettings : gmap string JsonObject
}.

Variable σ : store.
Variable swapPlugins : gmap string EdgeSwapPlugin.
Variable account : AccountState.
(** [fuzzyTimeout(promises, 20000)] resolves with the quotes that
    arrived or rejects with all the errors. *)
Variable fuzzyTimeout : list FetchCall → list ref + list (option SwapError).
(** How the promise returned by a quote's [close()] settles. *)
Variable close : ref → settled.

(** The [enabled] flag of the account for a plugin, [true] by default.
    For a name that [swapSettings] only inherits, the value read is a
    function without [enabled] field, and the default applies as well. *)
Definition accountEnabled (pluginId : string) : bool :=
  match swapSettings account !! pluginId with
  | Some settings => default true (enabled settings)
  | None => true
  end.

(** The body of the loop under "Invoke all the active swap plugins".
    The call records the own entries of [userSettings] and [promoCodes]
    for the plugin, that is what the account and the options hold for
    it. *)
Definition startRequests_step (request : EdgeSwapRequest)
    (disabled : gmap string bool) (promoCodes : gmap string string)
    (promises : list FetchCall) (pluginId : string) : list FetchCall :=
  if negb (accountEnabled pluginId) || isDisabled disabled pluginId then promises
  else promises ++ [ {| call_pluginId := pluginId;
                        call_request := request;
                        call_userSettings := userSettings account !! pluginId;
                        call_promoCode := promoCodes !! pluginId |} ].

(** [Object.keys(swapPlugins)] *)
Definition pluginIds : list string := (map_to_list swapPlugins).*1.

Definition startRequests (request : EdgeSwapRequest)
    (disabled : gmap string bool) (promoCodes : gmap string string) : list FetchCall :=
  foldl (startRequests_step request disabled promoCodes) [] pluginIds.

(** "Close unused quotes": one [Close] per array slot that does not
    hold the best quote. *)
Definition closeUnused (bestQuote : ref) (quotes : list ref) : list event :=
  foldl (λ trace quote,
           if decide (quote ≠ bestQuote)
           then trace ++ [Close quote (catch_undefined (close quote))]
           else trace) [] quotes.

(** The fulfilment handler of [fuzzyTimeout]; [bridgifyObject] returns
    its argument. *)
Definition onQuotes (preferPluginId : option string)
    (promoCodes : gmap string string) (quotes : list ref) : list event * result EdgeSwapQuote :=
  match pickBestQuote σ preferPluginId promoCodes quotes with
  | Throw e => ([], Throw e)
  | Ok bestQuote =>
      (closeUnused bestQuote quotes, upgradeQuote (σ bestQuote) swapPlugins)
  end.

(** The argument of [log] in the rejection handler: [errors.map]
    destructures every failure, [const { name, message } = error], which
    is a [TypeError] on [null] or [undefined]. *)
Fixpoint logRejected (errors : list (option SwapError)) : result unit :=
  match errors with
  | [] => Ok tt
  | None :: _ => Throw (TypeError "Cannot destructure property 'name' of null")
  | Some _ :: errors' => logRejected errors'
  end.

(** The rejection handler of [fuzzyTimeout]: the log, then the throw of
    the best error. *)
Definition onErrors (errors : list (option SwapError)) : result EdgeSwapQuote :=
  match logRejected errors with
  | Throw e => Throw e
  | Ok _ =>
      match pickBestError errors with
      | Throw e => Throw e
      | Ok error => Throw (Rejection error)
      end
  end.

(** The whole function: the events it causes and how its promise
    settles. *)
Definition fetchSwapQuote (request : EdgeSwapRequest)
    (opts : EdgeSwapRequestOptions) : list event * result EdgeSwapQuote :=
  let preferPluginId := opt_preferPluginId opts in
  let '(disabled, promoCodes) := upgradeOptions opts in
  let promises := startRequests request disabled promoCodes in
  if bool_decide (length promises < 1)%nat
  then (Fetch <$> promises, Throw (Error "No swap providers enabled"))
  else
    match fuzzyTimeout promises with
    | inl quotes =>
        let '(closes, outcome) := onQuotes preferPluginId promoCodes quotes in
        ((Fetch <$> promises) ++ closes, outcome)
    | inr errors => (Fetch <$> promises, onErrors errors)
    end.

End FetchSwapQuote.

(** ** The ranking that the comparator realises

    Used by the proofs only: the comparator keeps its left operand unless
    the right one ranks strictly higher.  A quote of the preferred plugin
    is in the top tier; below it the tiers follow the promo test and then
    the estimate test of [pickBestQuote_step], and inside a tier the
    integer quotient of the two amounts decides. *)

Section Ranking.
Variable σ : store.
Variable preferPluginId : option string.
Variable promoCodes : gmap string string.

(** A quote whose rate can be computed: [div] does not throw. *)
Definition wellFormed (q : ref) : Prop := fromNativeAmount (σ q) ≠ 0.

Definition tier (q : ref) : Z :=
  if isPreferred σ preferPluginId q then 4
  else (if hasPromo σ promoCodes q then 0 else 2)
       + (if default true (isEstimate (σ q)) then 0 else 1).

Definition quotient (q : ref) : Z :=
  Z.quot (toNativeAmount (σ q)) (fromNativeAmount (σ q)).

Definition outranks (b a : ref) : Prop :=
  tier a < tier b ∨ (tier a = tier b ∧ tier a < 4 ∧ quotient a < quotient b).

#[global] Instance outranks_dec b a : Decision (outranks b a).
Proof. unfold outranks. apply _. Defined.

End Ranking.

(** ** Concrete data for the examples *)

(** The store in which reference [i] is the [i]-th quote of a list. *)
Definition store_of (quotes : list EdgeSwapPluginQuote) : store :=
  λ r, default {| pluginName := ""; pluginId := None; isEstimate := None;
                  fromNativeAmount := 1; toNativeAmount := 0; quoteId := None |}
               (quotes !! r).

(** A firm quote of plugin [name], with [pluginId] unset. *)
Definition firmQuote (name : string) (toAmount fromAmount : Z) : EdgeSwapPluginQuote :=
  {| pluginName := name; pluginId := None; isEstimate := Some false;
     fromNativeAmount := fromAmount; toNativeAmount := toAmount; quoteId := None |}.

(** The effective rate of a quote as the specification defines it:
    [toAmount / fromAmount], as an exact rational number. *)
Definition exactRate (q : EdgeSwapPluginQuote) : Qcanon.Qc :=
  Qcanon.Qcdiv (Qc_of_Z (toNativeAmount q)) (Qc_of_Z (fromNativeAmount q)).

(** The quote [quote] with its [pluginId] field set to [pid] and every
    other field as it is. *)
Definition withPluginId (pid : option string) (quote : EdgeSwapPluginQuote)
    : EdgeSwapPluginQuote :=
  {| pluginName := pluginName quote;
     pluginId := pid;
     isEstimate := isEstimate quote;
     fromNativeAmount := fromNativeAmount quote;
     toNativeAmount := toNativeAmount quote;
     quoteId := quoteId quote |}.

(** ** Quotes that the criteria do not separate *)

Section Ties.
Variable σ : store.
Variable preferPluginId : option string.
Variable promoCodes : gmap string string.

(** Two quotes tie exactly when no criterion of the comparison tells
    them apart: both come from the preferred plugin, or neither does and
    they have the same promo status, the same estimate status and the
    same exact rate. *)
Definition exactTie (q q' : ref) : Prop :=
  (isPreferred σ preferPluginId q = true ∧ isPreferred σ preferPluginId q' = true)
  ∨ (isPreferred σ preferPluginId q = false
     ∧ isPreferred σ preferPluginId q' = false
     ∧ hasPromo σ promoCodes q = hasPromo σ promoCodes q'
     ∧ default true (isEstimate (σ q)) = default true (isEstimate (σ q'))
     ∧ exactRate (σ q) = exactRate (σ q')).

(** The integer division merges no two rates of the array: two quotes
    that reach the rate comparison (neither preferred, same promo
    status, same estimate status) with the same integer quotient have the
    same exact rate. *)
Definition ratesResolved (quotes : list ref) : Prop :=
  ∀ q q', q ∈ quotes → q' ∈ quotes →
    isPreferred σ preferPluginId q = false →
    isPreferred σ preferPluginId q' = false →
    hasPromo σ promoCodes q = hasPromo σ promoCodes q' →
    default true (isEstimate (σ q)) = default true (isEstimate (σ q')) →
    quotient σ q = quotient σ q' →
    exactRate (σ q) = exactRate (σ q').

End Ties.

(** ** Reading a trace *)

(** The plugin ids of the [fetchSwapQuote] calls of a trace, in order. *)
Definition fetchedIds {EdgeSwapRequest JsonObject : Type}
    (trace : list (@event EdgeSwapRequest JsonObject)) : list string :=
  omap (λ ev, match ev with
              | Fetch call => Some (call_pluginId call)
              | Close _ _ => None
              end) trace.

(** The quotes on which [close] is called in a trace, in order. *)
Definition closedQuotes {EdgeSwapRequest JsonObject : Type}
    (trace : list (@event EdgeSwapRequest JsonObject)) : list ref :=
  omap (λ ev, match ev with
              | Fetch _ => None
              | Close quote _ => Some quote
              end) trace.

(** The test of the loop of [fetchSwapQuote] read positively: the plugin
    is not skipped. *)
Definition selected {JsonObject : Type} (account : @AccountState JsonObject)
    (disabled : gmap string bool) (pluginId : string) : bool :=
  accountEnabled account pluginId && negb (isDisabled disabled pluginId).

(** The call the loop makes for a plugin it does not skip. *)
Definition fetchCallOf {EdgeSwapRequest JsonObject : Type}
    (account : @AccountState JsonObject) (request : EdgeSwapRequest)
    (promoCodes : gmap string string) (pluginId : string)
    : @FetchCall EdgeSwapRequest JsonObject :=
  {| call_pluginId := pluginId;
     call_request := request;
     call_userSettings := userSettings account !! pluginId;
     call_promoCode := promoCodes !! pluginId |}.

(** A flat [disabled] map in which every entry holds [true], the only
    value the module itself stores. *)
Definition disabledMapTyped (disabled : gmap string bool) : Prop :=
  map_Forall (λ _ flag, flag = true) disabled.

(** A registry, account settings and a store for the examples. *)
Definition exampleInfo : EdgeSwapPlugin := {| swapInfo := {| quoteUri := None |} |}.

Definition examplePlugins : gmap string EdgeSwapPlugin :=
  {[ "x" := exampleInfo; "y" := exampleInfo; "z" := exampleInfo ]}.

Definition exampleAccount : @AccountState unit :=
  {| swapSettings := {[ "z" := {| enabled := Some false |} ]};
     userSettings := ∅ |}.

Definition exampleQuotes : store :=
  store_of [firmQuote "x" 10 5; firmQuote "y" 30 10; firmQuote "x" 10 5].

(** Request options for the examples: [{ disabled: { x: true },
    plugins: { y: { disabled: true } } }], [{ disabled: { y: true } }],
    [{ disabled: { x: false } }] and [{}]. *)
Definition optsAllDisabled : EdgeSwapRequestOptions :=
  {| opt_preferPluginId := None;
     opt_disabled := Some {["x" := true]};
     opt_promoCodes := None;
     opt_plugins :=
       Some {["y" := {| plugin_disabled := Some true; plugin_promoCode := None |}]} |}.

Definition optsOneDisabled : EdgeSwapRequestOptions :=
  {| opt_preferPluginId := None;
     opt_disabled := Some {["y" := true]};
     opt_promoCodes := None;
     opt_plugins := None |}.

Definition optsFalseEntry : EdgeSwapRequestOptions :=
  {| opt_preferPluginId := None;
     opt_disabled := Some {["x" := false]};
     opt_promoCodes := None;
     opt_plugins := None |}.

Definition optsEmpty : EdgeSwapRequestOptions :=
  {| opt_preferPluginId := None;
     opt_disabled := None;
     opt_promoCodes := None;
     opt_plugins := None |}.

(** An estimate of plugin [name]: [isEstimate] and [pluginId] unset. *)
Definition estimateQuote (name : string) (toAmount fromAmount : Z) : EdgeSwapPluginQuote :=
  {| pluginName := name; pluginId := None; isEstimate := None;
     fromNativeAmount := fromAmount; toNativeAmount := toAmount; quoteId := None |}.

(** Four quotes: an estimate with the best rate, two firm quotes with
    the same integer quotient, and a firm quote with a lower one. *)
Definition exampleMixedQuotes : store :=
  store_of [estimateQuote "w" 90 10; firmQuote "x" 25 10;
            firmQuote "y" 20 10; firmQuote "z" 10 10].

(** Failures for the examples. *)
Definition exampleError (k : FailureKind) : option SwapError :=
  Some {| kind := k; message := "" |}.

Definition exampleErrors : list (option SwapError) :=
  [ None; exampleError SwapCurrencyError; exampleError (SwapBelowLimitError 100);
    exampleError (SwapAboveLimitError 7); exampleError (SwapBelowLimitError 50);
    None; exampleError (SwapBelowLimitError 80) ].

Definition exampleAboveErrors : list (option SwapError) :=
  [ exampleError (SwapAboveLimitError 7); exampleError SwapCurrencyError;
    exampleError (SwapAboveLimitError 9); None;
    exampleError (SwapAboveLimitError 8) ].

(** Options in both shapes: [{ promoCodes: { x: 'FLAT' }, plugins:
    { x: { promoCode: 'LEGACY' }, y: { disabled: true } } }]. *)
Definition optsLegacy : EdgeSwapRequestOptions :=
  {| opt_preferPluginId := None;
     opt_disabled := None;
     opt_promoCodes := Some {["x" := "FLAT"]};
     opt_plugins :=
       Some {[ "x" := {| plugin_disabled := None; plugin_promoCode := Some "LEGACY" |};
               "y" := {| plugin_disabled := Some true; plugin_promoCode := None |} ]} |}.

(** Two quotes, the better one from a plugin that is not in the example
    registry. *)
Definition exampleForeignQuotes : store :=
  store_of [firmQuote "x" 10 10; firmQuote "unknown" 50 10].

Definition exampleFundsErrors : list (option SwapError) :=
  [ None; exampleError (SwapBelowLimitError 100);
    Some {| kind := PendingFundsError; message := "pending" |};
    exampleError InsufficientFundsError; exampleError SwapCurrencyError ].

(** Failures of three plugins, none of them [null]. *)
Definition exampleRejections : list (option SwapError) :=
  [ exampleError SwapCurrencyError; exampleError (SwapBelowLimitError 100);
    exampleError (SwapAboveLimitError 7) ].

(** [{ disabled: { x: false, y: true } }] *)
Definition optsFalseAndTrue : EdgeSwapRequestOptions :=
  {| opt_preferPluginId := None;
     opt_disabled := Some {["x" := false; "y" := true]};
     opt_promoCodes := None;
     opt_plugins := None |}.

(** [{ preferPluginId: 'x' }] *)
Definition optsPreferX : EdgeSwapRequestOptions :=
  {| opt_preferPluginId := Some "x";
     opt_disabled := None;
     opt_promoCodes := None;
     opt_plugins := None |}.

(** * Properties *)

(** ** The comparator step *)

Section ComparatorFacts.
Variable σ : store.
Variable preferPluginId : option string.
Variable promoCodes : gmap string string.

Local Abbreviation step := (pickBestQuote_step σ preferPluginId promoCodes).
Local Abbreviation tierOf := (tier σ preferPluginId promoCodes).
Local Abbreviation beats := (outranks σ preferPluginId promoCodes).

Lemma div_nonzero x y : y ≠ 0 → biggystring.div x y = Ok (Z.quot x y).
Proof. intros Hy. unfold biggystring.div. by rewrite decide_False. Qed.

Lemma tier_range q : 0 ≤ tierOf q ≤ 4.
Proof.
  unfold tier.
  destruct (isPreferred σ preferPluginId q), (hasPromo σ promoCodes q),
    (default true (isEstimate (σ q))); lia.
Qed.

Lemma tier_preferred q : tierOf q = 4 ↔ isPreferred σ preferPluginId q = true.
Proof.
  unfold tier.
  destruct (isPreferred σ preferPluginId q), (hasPromo σ promoCodes q),
    (default true (isEstimate (σ q)));
    split; (lia || done).
Qed.

(** The step keeps the left operand unless the right one ranks strictly
    higher. *)
Lemma pickBestQuote_step_outranks a b :
  wellFormed σ a → wellFormed σ b →
  step a b = Ok (if decide (beats b a) then b else a).
Proof.
  intros Ha Hb.
  destruct (decide (beats b a)) as [H|H];
    unfold outranks, tier, quotient in H; unfold pickBestQuote_step;
    rewrite (div_nonzero _ _ Ha), (div_nonzero _ _ Hb); unfold biggystring.gt;
    destruct (isPreferred σ preferPluginId a), (isPreferred σ preferPluginId b),
      (hasPromo σ promoCodes a), (hasPromo σ promoCodes b),
      (default true (isEstimate (σ a))), (default true (isEstimate (σ b)));
    simpl in *; try case_bool_decide; first [done | lia].
Qed.

Lemma outranks_irrefl a : ¬ beats a a.
Proof. unfold outranks. lia. Qed.

Lemma outranks_trans a b c : beats a b → beats b c → beats a c.
Proof. unfold outranks. lia. Qed.

(** The fold returns a quote of the array that no quote of the array
    beats. *)
Lemma reduce_from_maximal quotes acc :
  wellFormed σ acc → Forall (wellFormed σ) quotes →
  ∃ w, reduce_from step acc quotes = Ok w
       ∧ w ∈ acc :: quotes
       ∧ ∀ q, q ∈ acc :: quotes → ¬ beats q w.
Proof.
  intros Hacc Hall. revert acc Hacc.
  induction Hall as [|b quotes Hb Hall IH]; intros acc Hacc.
  - exists acc. split; [done|]. split; [set_solver|].
    intros q ->%list_elem_of_singleton. apply outranks_irrefl.
  - simpl. rewrite (pickBestQuote_step_outranks _ _ Hacc Hb). simpl.
    destruct (decide (beats b acc)) as [Hout|Hout].
    + destruct (IH b Hb) as (w & Hw & Hmem & Hmax).
      exists w. split; [done|]. split; [set_solver|].
      intros q [->|Hq]%elem_of_cons; [|by apply Hmax].
      intros Hq. apply (Hmax b); [set_solver|].
      by apply outranks_trans with acc.
    + destruct (IH acc Hacc) as (w & Hw & Hmem & Hmax).
      exists w. split; [done|]. split; [set_solver|].
      intros q [->|[->|Hq]%elem_of_cons]%elem_of_cons.
      * apply Hmax. set_solver.
      * intros Hq. apply Hout. destruct (decide (w = acc)) as [->|Hne]; [done|].
        assert (¬ beats acc w) as Hn by (apply Hmax; set_solver).
        revert Hq Hn Hout. unfold outranks. lia.
      * apply Hmax. set_solver.
Qed.

Lemma pickBestQuote_maximal quotes :
  quotes ≠ [] → Forall (wellFormed σ) quotes →
  ∃ w, pickBestQuote σ preferPluginId promoCodes quotes = Ok w
       ∧ w ∈ quotes
       ∧ ∀ q, q ∈ quotes → ¬ beats q w.
Proof.
  intros Hne Hall. destruct quotes as [|a quotes]; [done|].
  apply Forall_cons in Hall as [Ha Hall].
  by apply reduce_from_maximal.
Qed.

(** The winner of the fold is the leftmost of the quotes that nothing
    outranks: it either is the accumulator, which no later quote
    outranks, or it outranks the accumulator and every quote before it,
    and no quote after it outranks it. *)
Lemma reduce_from_leftmost quotes acc w :
  wellFormed σ acc → Forall (wellFormed σ) quotes →
  reduce_from step acc quotes = Ok w →
  (w = acc ∧ ∀ q, q ∈ quotes → ¬ beats q acc)
  ∨ ∃ before after,
      quotes = before ++ w :: after
      ∧ beats w acc
      ∧ (∀ q, q ∈ before → beats w q)
      ∧ (∀ q, q ∈ after → ¬ beats q w).
Proof.
  intros Hacc Hall. revert acc Hacc.
  induction Hall as [|b quotes Hb Hall IH]; intros acc Hacc Hred.
  - left. simpl in Hred. split; [congruence|]. by intros q ?%not_elem_of_nil.
  - simpl in Hred. rewrite (pickBestQuote_step_outranks _ _ Hacc Hb) in Hred.
    simpl in Hred. destruct (decide (beats b acc)) as [Hout|Hout].
    + right. destruct (IH b Hb Hred) as [[-> Hafter]|(l1 & l2 & -> & Hwb & Hl1 & Hl2)].
      * exists [], quotes. split; [done|]. split; [done|].
        split; [by intros q ?%not_elem_of_nil|done].
      * exists (b :: l1), l2. split; [done|].
        split; [by eapply outranks_trans|].
        split; [|done]. intros q [->|Hq]%elem_of_cons; [done|by apply Hl1].
    + destruct (IH acc Hacc Hred) as [[-> Hafter]|(l1 & l2 & -> & Hwa & Hl1 & Hl2)].
      * left. split; [done|]. intros q [->|Hq]%elem_of_cons; [done|by apply Hafter].
      * right. exists (b :: l1), l2. split; [done|]. split; [done|].
        split; [|done]. intros q [->|Hq]%elem_of_cons; [|by apply Hl1].
        revert Hwa Hout. unfold outranks. lia.
Qed.

Lemma pickBestQuote_leftmost quotes w :
  Forall (wellFormed σ) quotes →
  pickBestQuote σ preferPluginId promoCodes quotes = Ok w →
  ∃ before after,
    quotes = before ++ w :: after
    ∧ (∀ q, q ∈ before → beats w q)
    ∧ (∀ q, q ∈ after → ¬ beats q w).
Proof.
  intros Hall Hbest. destruct quotes as [|a quotes]; [done|].
  apply Forall_cons in Hall as [Ha Hall]. unfold pickBestQuote, reduce in Hbest.
  destruct (reduce_from_leftmost quotes a w Ha Hall Hbest)
    as [[-> Hl2]|(l1 & l2 & -> & Hwa & Hl1 & Hl2)].
  - exists [], quotes. split; [done|]. split; [by intros q ?%not_elem_of_nil|done].
  - exists (a :: l1), l2. split; [done|]. split; [|done].
    intros q [->|Hq]%elem_of_cons; [done|by apply Hl1].
Qed.

End ComparatorFacts.

(** ** Promo codes *)

(** What the promo test of the step does when exactly one of two quotes,
    neither from the preferred plugin, has a promo code: whichever side
    it stands on, the quote WITHOUT the promo code is returned. *)
Lemma pickBestQuote_step_promo σ preferPluginId promoCodes a b :
  isPreferred σ preferPluginId a = false →
  isPreferred σ preferPluginId b = false →
  hasPromo σ promoCodes a = true →
  hasPromo σ promoCodes b = false →
  pickBestQuote_step σ preferPluginId promoCodes a b = Ok b
  ∧ pickBestQuote_step σ preferPluginId promoCodes b a = Ok b.
Proof.
  intros Ha Hb Hpa Hpb. unfold pickBestQuote_step.
  by rewrite Ha, Hb, Hpa, Hpb.
Qed.

(** C1: a quote whose provider has an active promo code should outrank
    one without, whatever the rates.  Evaluated on the specification's
    own example (A from provider x with a promo code and rate 1, B from
    provider y without promo code and rate 10, no preferred provider),
    the step returns B, the quote without promo code, with A on either
    side: the two [return] statements of the promo test are swapped. *)
Theorem pickBestQuote_step_promo_quote_loses :
  let σ := store_of [firmQuote "x" 10 10; firmQuote "y" 100 10] in
  let promoCodes : gmap string string := {["x" := "PROMO"]} in
  hasPromo σ promoCodes 0 = true
  ∧ hasPromo σ promoCodes 1 = false
  ∧ pickBestQuote_step σ None promoCodes 0 1 = Ok 1%nat
  ∧ pickBestQuote_step σ None promoCodes 1 0 = Ok 1%nat
  ∧ pickBestQuote σ None promoCodes [0; 1]%nat = Ok 1%nat
  ∧ pickBestQuote σ None promoCodes [1; 0]%nat = Ok 1%nat.
Proof. vm_compute. done. Qed.

(** ** Rates *)

(** At the last criterion (no preferred quote, same promo status, same
    estimate status) the step compares the integer quotients of the
    amounts, and keeps the left operand unless the right quotient is
    strictly larger. *)
Lemma pickBestQuote_step_rate σ preferPluginId promoCodes a b :
  wellFormed σ a → wellFormed σ b →
  isPreferred σ preferPluginId a = false →
  isPreferred σ preferPluginId b = false →
  hasPromo σ promoCodes a = hasPromo σ promoCodes b →
  default true (isEstimate (σ a)) = default true (isEstimate (σ b)) →
  pickBestQuote_step σ preferPluginId promoCodes a b
  = Ok (if bool_decide (quotient σ a < quotient σ b) then b else a).
Proof.
  intros Ha Hb Hpa Hpb Hpromo Hest. unfold pickBestQuote_step, quotient.
  rewrite Hpa, Hpb, Hpromo, Hest, (div_nonzero _ _ Ha), (div_nonzero _ _ Hb).
  by destruct (hasPromo σ promoCodes b), (default true (isEstimate (σ b))).
Qed.

(** C3: at the last criterion the quote with the strictly higher rate
    [toAmount / fromAmount] should win, without loss of precision.  Here
    both quotes are firm, none is preferred, none has a promo code, and
    the right one has the strictly higher rate (19/10 against 15/10); the
    step keeps the left one, because [div] returns the integer quotient
    1 for both. *)
Theorem pickBestQuote_step_rate_truncated :
  let a := firmQuote "a" 15 10 in
  let b := firmQuote "b" 19 10 in
  let σ := store_of [a; b] in
  Qcanon.Qclt (exactRate a) (exactRate b)
  ∧ biggystring.div (toNativeAmount a) (fromNativeAmount a) = Ok 1
  ∧ biggystring.div (toNativeAmount b) (fromNativeAmount b) = Ok 1
  ∧ pickBestQuote_step σ None ∅ 0 1 = Ok 0%nat.
Proof. vm_compute. done. Qed.

(** ** Order of the quotes *)

(** C4, as stated: the winner does not depend on the order of the array.
    Two firm quotes of different plugins with the same rate (10/5 and
    20/10), no preferred plugin and no promo code: each order of the
    array selects its first element. *)
Lemma pickBestQuote_order_dependent :
  let σ := store_of [firmQuote "x" 10 5; firmQuote "y" 20 10] in
  [0; 1]%nat ≡ₚ [1; 0]%nat
  ∧ exactRate (σ 0%nat) = exactRate (σ 1%nat)
  ∧ pickBestQuote σ None ∅ [0; 1]%nat = Ok 0%nat
  ∧ pickBestQuote σ None ∅ [1; 0]%nat = Ok 1%nat
  ∧ σ 0%nat ≠ σ 1%nat.
Proof.
  cbv zeta. split; [apply perm_swap|].
  split; [by apply Qcanon.Qc_is_canon|].
  split; [by vm_compute|]. split; [by vm_compute|].
  vm_compute. discriminate.
Qed.

(** The exact rates of two quotes with non-zero [fromNativeAmount] are
    equal exactly when the cross products of their amounts are. *)
Lemma exactRate_eq q q' :
  fromNativeAmount q ≠ 0 → fromNativeAmount q' ≠ 0 →
  exactRate q = exactRate q'
  ↔ toNativeAmount q * fromNativeAmount q' = toNativeAmount q' * fromNativeAmount q.
Proof.
  intros Hf Hf'. unfold exactRate.
  assert (Qc_of_Z (fromNativeAmount q) ≠ Qc_of_Z 0) as Hy
    by (intros ?%Z2Qc_inj; done).
  assert (Qc_of_Z (fromNativeAmount q') ≠ Qc_of_Z 0) as Hy'
    by (intros ?%Z2Qc_inj; done).
  rewrite Z2Qc_inj_0 in Hy, Hy'.
  rewrite <- Z2Qc_inj_iff, !Z2Qc_inj_mul.
  generalize dependent (Qc_of_Z (fromNativeAmount q)).
  generalize dependent (Qc_of_Z (fromNativeAmount q')).
  generalize (Qc_of_Z (toNativeAmount q)) (Qc_of_Z (toNativeAmount q')).
  intros x x' y' Hy' y Hy.
  pose proof (Qcanon.Qcmult_div_r x y Hy) as Hx.
  pose proof (Qcanon.Qcmult_div_r x' y' Hy') as Hx'.
  split.
  - intros Heq. rewrite <- Hx at 1. rewrite <- Hx' at 1. rewrite Heq.
    set (r := Qcanon.Qcdiv x' y').
    rewrite (Qcanon.Qcmult_comm y r), (Qcanon.Qcmult_comm y' r).
    rewrite <- !Qcanon.Qcmult_assoc. by rewrite (Qcanon.Qcmult_comm y y').
  - intros Heq.
    rewrite <- (Qcanon.Qcdiv_mult_l x y' Hy') at 1. rewrite Heq.
    unfold Qcanon.Qcdiv. rewrite <- !Qcanon.Qcmult_assoc.
    rewrite (Qcanon.Qcmult_comm (Qcanon.Qcinv y') (Qcanon.Qcinv y)).
    rewrite (Qcanon.Qcmult_assoc y).
    rewrite Qcanon.Qcmult_inv_r by done. by rewrite Qcanon.Qcmult_1_l.
Qed.

(** Quotes of equal exact rate have equal integer quotients. *)
Lemma exactRate_quotient σ q q' :
  wellFormed σ q → wellFormed σ q' →
  exactRate (σ q) = exactRate (σ q') → quotient σ q = quotient σ q'.
Proof.
  unfold wellFormed, quotient. intros Hf Hf' Hrate%exactRate_eq; [|done..].
  rewrite <- (Z.quot_mul_cancel_r (toNativeAmount (σ q)) (fromNativeAmount (σ q))
                (fromNativeAmount (σ q'))) by done.
  rewrite Hrate, (Z.mul_comm (fromNativeAmount (σ q))).
  by apply Z.quot_mul_cancel_r.
Qed.

Section TieFacts.
Variable σ : store.
Variable preferPluginId : option string.
Variable promoCodes : gmap string string.

Local Abbreviation ranksAbove := (outranks σ preferPluginId promoCodes).
Local Abbreviation tied := (exactTie σ preferPluginId promoCodes).

Lemma exactTie_sym q q' : tied q q' → tied q' q.
Proof.
  intros [[Hp Hp']|(Hp & Hp' & Hpromo & Hest & Hrate)]; [by left|by right].
Qed.

(** Neither of two exactly tied quotes outranks the other. *)
Lemma exactTie_not_outranks q q' :
  wellFormed σ q → wellFormed σ q' → tied q q' → ¬ ranksAbove q q'.
Proof.
  intros Hq Hq' [[Hp Hp']|(Hp & Hp' & Hpromo & Hest & Hrate)];
    unfold outranks, tier.
  - rewrite Hp, Hp'. lia.
  - apply exactRate_quotient in Hrate; [|done..].
    rewrite Hp, Hp', Hpromo, Hest, Hrate. lia.
Qed.

(** Two quotes neither of which outranks the other tie exactly, when the
    integer division has not merged their rates. *)
Lemma not_outranks_exactTie q q' :
  (isPreferred σ preferPluginId q = false →
   isPreferred σ preferPluginId q' = false →
   hasPromo σ promoCodes q = hasPromo σ promoCodes q' →
   default true (isEstimate (σ q)) = default true (isEstimate (σ q')) →
   quotient σ q = quotient σ q' →
   exactRate (σ q) = exactRate (σ q')) →
  ¬ ranksAbove q q' → ¬ ranksAbove q' q → tied q q'.
Proof.
  unfold outranks, tier, exactTie. intros Hres H1 H2.
  destruct (isPreferred σ preferPluginId q), (isPreferred σ preferPluginId q');
    [by left|exfalso..|right].
  - destruct (hasPromo σ promoCodes q'), (default true (isEstimate (σ q'))); lia.
  - destruct (hasPromo σ promoCodes q), (default true (isEstimate (σ q))); lia.
  - destruct (hasPromo σ promoCodes q), (hasPromo σ promoCodes q'),
      (default true (isEstimate (σ q))), (default true (isEstimate (σ q')));
      try lia; (repeat split; [done..|]); apply Hres; (done || lia).
Qed.

End TieFacts.

(** C4, amended: the winner is independent of the order up to exact
    ties.  On a non-empty array of quotes (each with a non-zero
    [fromNativeAmount]) in which the integer division merges no two
    different rates, and on every permutation of it, [pickBestQuote]
    returns quotes of the array that tie exactly: both from the
    preferred plugin, or with the same promo status, estimate status and
    exact rate.  The winner is therefore the same quote in every order
    when no other quote of the array ties with it exactly; among exactly
    tied quotes the position decides, and in each order the winner is
    the leftmost of them: no quote before it ties with it. *)
Theorem pickBestQuote_permutation σ preferPluginId promoCodes quotes quotes' :
  quotes ≠ [] →
  Forall (wellFormed σ) quotes →
  ratesResolved σ preferPluginId promoCodes quotes →
  quotes ≡ₚ quotes' →
  ∃ w w',
    pickBestQuote σ preferPluginId promoCodes quotes = Ok w
    ∧ pickBestQuote σ preferPluginId promoCodes quotes' = Ok w'
    ∧ w ∈ quotes ∧ w' ∈ quotes
    ∧ exactTie σ preferPluginId promoCodes w w'
    ∧ ((∀ q, q ∈ quotes → q ≠ w → ¬ exactTie σ preferPluginId promoCodes q w) →
       w' = w)
    ∧ (∃ before after,
         quotes = before ++ w :: after
         ∧ ∀ q, q ∈ before → ¬ exactTie σ preferPluginId promoCodes q w)
    ∧ (∃ before after,
         quotes' = before ++ w' :: after
         ∧ ∀ q, q ∈ before → ¬ exactTie σ preferPluginId promoCodes q w').
Proof.
  intros Hne Hall Hres Hperm.
  assert (quotes' ≠ []) as Hne'.
  { intros ->. by apply Permutation_nil_r in Hperm. }
  assert (Forall (wellFormed σ) quotes') as Hall' by by rewrite <- Hperm.
  destruct (pickBestQuote_maximal σ preferPluginId promoCodes quotes Hne Hall)
    as (w & Hw & Hwin & Hwmax).
  destruct (pickBestQuote_maximal σ preferPluginId promoCodes quotes' Hne' Hall')
    as (w' & Hw' & Hwin' & Hwmax').
  assert (w' ∈ quotes) as Hwin'' by by rewrite Hperm.
  assert (∀ q, q ∈ quotes → wellFormed σ q) as Hwf
    by (intros q Hq; by eapply Forall_forall in Hall).
  assert (exactTie σ preferPluginId promoCodes w w') as Htie.
  { apply not_outranks_exactTie.
    - by apply Hres.
    - apply Hwmax'. by rewrite <- Hperm.
    - by apply Hwmax. }
  assert (∀ l v, Forall (wellFormed σ) l →
            pickBestQuote σ preferPluginId promoCodes l = Ok v →
            ∃ before after,
              l = before ++ v :: after
              ∧ ∀ q, q ∈ before → ¬ exactTie σ preferPluginId promoCodes q v)
    as Hleft.
  { intros l v Hl Hv.
    destruct (pickBestQuote_leftmost σ preferPluginId promoCodes l v Hl Hv)
      as (before & after & -> & Hbefore & _).
    exists before, after. split; [done|]. intros q Hq Hqv.
    apply Forall_app in Hl as [Hl1 Hl2]. apply Forall_cons in Hl2 as [Hv' _].
    apply (exactTie_not_outranks σ preferPluginId promoCodes v q); [done| |..].
    - by eapply Forall_forall in Hl1.
    - by apply exactTie_sym.
    - by apply Hbefore. }
  exists w, w'. split; [done|]. split; [done|]. split; [done|]. split; [done|].
  split; [done|]. split; [|split; by apply Hleft].
  intros Hunique. destruct (decide (w' = w)) as [|Hneq]; [done|].
  destruct (Hunique w' Hwin'' Hneq). by apply exactTie_sym.
Qed.

Lemma pickBestQuote_permutation_witness :
  let σ := store_of [firmQuote "x" 10 5; firmQuote "y" 30 10; firmQuote "z" 20 10] in
  ∃ w w',
    pickBestQuote σ None ∅ [0; 1; 2]%nat = Ok w
    ∧ pickBestQuote σ None ∅ [2; 0; 1]%nat = Ok w'
    ∧ w ∈ [0; 1; 2]%nat ∧ w' ∈ [0; 1; 2]%nat
    ∧ exactTie σ None ∅ w w'
    ∧ ((∀ q, q ∈ [0; 1; 2]%nat → q ≠ w → ¬ exactTie σ None ∅ q w) → w' = w)
    ∧ (∃ before after,
         [0; 1; 2]%nat = before ++ w :: after
         ∧ ∀ q, q ∈ before → ¬ exactTie σ None ∅ q w)
    ∧ (∃ before after,
         [2; 0; 1]%nat = before ++ w' :: after
         ∧ ∀ q, q ∈ before → ¬ exactTie σ None ∅ q w').
Proof.
  cbv zeta.
  apply (pickBestQuote_permutation
           (store_of [firmQuote "x" 10 5; firmQuote "y" 30 10; firmQuote "z" 20 10])
           None ∅ [0; 1; 2]%nat [2; 0; 1]%nat).
  - discriminate.
  - repeat constructor; vm_compute; discriminate.
  - intros q q' Hq Hq' _ _ _ _ Hquot.
    repeat (apply elem_of_cons in Hq as [->|Hq];
            [repeat (apply elem_of_cons in Hq' as [->|Hq'];
                     [first [by apply Qcanon.Qc_is_canon | by vm_compute in Hquot]|]);
             by apply not_elem_of_nil in Hq'|]).
    by apply not_elem_of_nil in Hq.
  - apply Permutation_cons_app with (l1 := [2%nat]) (l2 := [1%nat]).
    apply perm_swap.
Defined.

(** ** The preferred plugin *)

(** Once the accumulator is a quote of the preferred plugin, the fold
    returns it. *)
Lemma reduce_from_preferred σ preferPluginId promoCodes quotes acc :
  isPreferred σ preferPluginId acc = true →
  reduce_from (pickBestQuote_step σ preferPluginId promoCodes) acc quotes = Ok acc.
Proof.
  intros Hacc. induction quotes as [|b quotes IH]; [done|].
  simpl. unfold pickBestQuote_step at 2. by rewrite Hacc.
Qed.

(** The fold reaches the first quote of the preferred plugin with an
    accumulator that is not preferred, and takes it. *)
Lemma reduce_from_first_preferred σ preferPluginId promoCodes before p after acc :
  Forall (wellFormed σ) (acc :: before) →
  Forall (λ q, isPreferred σ preferPluginId q = false) (acc :: before) →
  isPreferred σ preferPluginId p = true →
  reduce_from (pickBestQuote_step σ preferPluginId promoCodes) acc
    (before ++ p :: after) = Ok p.
Proof.
  intros Hwf Hnot Hp. revert acc Hwf Hnot.
  induction before as [|b before IH]; intros acc Hwf Hnot.
  - apply Forall_cons in Hnot as [Hacc _]. simpl.
    unfold pickBestQuote_step at 2. rewrite Hacc, Hp. simpl.
    by apply reduce_from_preferred.
  - apply Forall_cons in Hwf as [Hacc Hwf]. apply Forall_cons in Hnot as [Hnacc Hnot].
    pose proof Hwf as Hwf'. pose proof Hnot as Hnot'.
    apply Forall_cons in Hwf as [Hb Hwf]. apply Forall_cons in Hnot as [Hnb Hnot].
    simpl. rewrite (pickBestQuote_step_outranks _ _ _ _ _ Hacc Hb). simpl.
    case_decide; apply IH; by try apply Forall_cons.
Qed.

(** C8, as stated: a list that holds a quote of the preferred plugin
    always yields a quote of that plugin.  With the quotes a, b and p in
    this order, p from the preferred plugin and a with a
    [fromNativeAmount] of zero, the comparison of a with b reaches the
    rate division, which throws: [pickBestQuote] returns no quote. *)
Lemma pickBestQuote_preferred_zero_amount :
  let σ := store_of [firmQuote "a" 10 0; firmQuote "b" 10 10; firmQuote "p" 10 10] in
  2%nat ∈ [0; 1; 2]%nat
  ∧ pluginName (σ 2%nat) = "p"
  ∧ pickBestQuote σ (Some "p") ∅ [0; 1; 2]%nat
    = Throw (AssertionError "Assertion failed")
  ∧ ∀ w, pickBestQuote σ (Some "p") ∅ [0; 1; 2]%nat ≠ Ok w.
Proof.
  cbv zeta. split; [do 2 apply list_elem_of_further; apply list_elem_of_here|].
  split; [done|]. split; [by vm_compute|]. intros w. by vm_compute.
Qed.

(** C8, amended: when the array holds a quote of the preferred plugin,
    [pickBestQuote] returns the first such quote of the array, whatever
    the other quotes' amounts, estimate flags and promo codes, provided
    the quotes that come before it have a non-zero [fromNativeAmount]
    (their comparisons may reach the rate division, which throws on
    zero).  The quotes after it are not looked at. *)
Theorem pickBestQuote_preferred σ (prefer : string) promoCodes before p after :
  Forall (wellFormed σ) before →
  (∀ q, q ∈ before → pluginName (σ q) ≠ prefer) →
  pluginName (σ p) = prefer →
  pickBestQuote σ (Some prefer) promoCodes (before ++ p :: after) = Ok p.
Proof.
  intros Hwf Hnot Hname.
  assert (isPreferred σ (Some prefer) p = true) as Hp.
  { unfold isPreferred. apply bool_decide_eq_true. by rewrite Hname. }
  destruct before as [|a before]; simpl.
  - by apply reduce_from_preferred.
  - apply reduce_from_first_preferred; [done| |done].
    apply Forall_forall. intros q Hq. unfold isPreferred.
    apply bool_decide_eq_false. intros [= Heq]. by apply (Hnot q Hq).
Qed.

Lemma pickBestQuote_preferred_witness :
  let σ := store_of [firmQuote "x" 30 10; firmQuote "y" 10 10; firmQuote "z" 20 0] in
  pickBestQuote σ (Some "y") {["x" := "PROMO"]} [0; 1; 2]%nat = Ok 1%nat.
Proof.
  cbv zeta.
  apply (pickBestQuote_preferred
           (store_of [firmQuote "x" 30 10; firmQuote "y" 10 10; firmQuote "z" 20 0])
           "y" {["x" := "PROMO"]} [0%nat] 1%nat [2%nat]).
  - repeat constructor; vm_compute; discriminate.
  - intros q ->%list_elem_of_singleton. vm_compute. discriminate.
  - reflexivity.
Defined.

(** ** [pluginName] against [pluginId] *)

Lemma isPreferred_undefined σ q : isPreferred σ None q = false.
Proof. unfold isPreferred. by apply bool_decide_eq_false. Qed.

Lemma isPreferred_other σ pid q :
  pluginName (σ q) ≠ pid → isPreferred σ (Some pid) q = false.
Proof.
  intros Hne. unfold isPreferred. apply bool_decide_eq_false. congruence.
Qed.

Lemma hasPromo_insert_other σ (promoCodes : gmap string string) pid code q :
  pluginName (σ q) ≠ pid →
  hasPromo σ (<[pid := code]> promoCodes) q = hasPromo σ promoCodes q.
Proof.
  intros Hne. unfold hasPromo. by rewrite lookup_insert_ne.
Qed.

(** The step reads the preferred id and the promo codes through
    [isPreferred] and [hasPromo] of its two operands only. *)
Lemma pickBestQuote_step_ext σ prefer1 prefer2 promo1 promo2 a b :
  isPreferred σ prefer1 a = isPreferred σ prefer2 a →
  isPreferred σ prefer1 b = isPreferred σ prefer2 b →
  hasPromo σ promo1 a = hasPromo σ promo2 a →
  hasPromo σ promo1 b = hasPromo σ promo2 b →
  pickBestQuote_step σ prefer1 promo1 a b = pickBestQuote_step σ prefer2 promo2 a b.
Proof.
  intros Ha Hb Hpa Hpb. unfold pickBestQuote_step.
  by rewrite Ha, Hb, Hpa, Hpb.
Qed.

Lemma isPreferred_true σ prefer q :
  isPreferred σ prefer q = true ↔ prefer = Some (pluginName (σ q)).
Proof. unfold isPreferred. apply bool_decide_eq_true. Qed.

Lemma hasPromo_true σ (promoCodes : gmap string string) q :
  hasPromo σ promoCodes q = true
  ↔ is_Some (promoCodes !! pluginName (σ q)) ∨ inherited (pluginName (σ q)) = true.
Proof.
  unfold hasPromo. destruct (promoCodes !! pluginName (σ q)) as [code|].
  - split; [intros _; left; by eexists|done].
  - split; [by right|]. intros [[? [=]]|?]. done.
Qed.

(** The comparator does not read the [pluginId] field. *)
Lemma pickBestQuote_step_withPluginId σ preferPluginId promoCodes f a b :
  pickBestQuote_step (λ r, withPluginId (f r) (σ r)) preferPluginId promoCodes a b
  = pickBestQuote_step σ preferPluginId promoCodes a b.
Proof. done. Qed.

(** C10: the comparator matches the preferred plugin and looks up promo
    codes by [pluginName] only, while [upgradeQuote] publishes [pluginId]
    (and [pluginName] only when [pluginId] is unset).  For a quote [q]
    whose [pluginId] is [pid] and differs from its [pluginName]:
    [upgradeQuote] resolves its public id to [pid] (and that of a quote
    without [pluginId] to its [pluginName]); [q] is preferred
    exactly when [preferPluginId] is its [pluginName], so not when it is
    [pid], and the step run with [pid] against any quote not named [pid]
    behaves as with no preferred plugin at all, whereas with the
    [pluginName] it returns [q] from either side; [q] has a promo code
    exactly when [promoCodes] has something under its [pluginName], a
    code stored under [pid] changes neither that nor any result of the
    step, whereas a code stored under the [pluginName] gives [q] a promo
    code; and no result of the step depends on the [pluginId] fields of
    the quotes. *)
Theorem comparator_keys_on_pluginName σ preferPluginId promoCodes
    (swapPlugins : gmap string EdgeSwapPlugin) q pid code :
  pluginId (σ q) = Some pid →
  pid ≠ pluginName (σ q) →
  (∀ plugin, swapPlugins !! pid = Some plugin →
     ∃ public, upgradeQuote (σ q) swapPlugins = Ok public
               ∧ quote_pluginId public = pid)
  ∧ (∀ public, upgradeQuote (σ q) swapPlugins = Ok public →
               quote_pluginId public = pid)
  ∧ (∀ q' plugin', pluginId q' = None →
       swapPlugins !! pluginName q' = Some plugin' →
       ∃ public, upgradeQuote q' swapPlugins = Ok public
                 ∧ quote_pluginId public = pluginName q')
  ∧ (∀ q' public, pluginId q' = None →
       upgradeQuote q' swapPlugins = Ok public →
       quote_pluginId public = pluginName q')
  ∧ (∀ prefer, isPreferred σ prefer q = true ↔ prefer = Some (pluginName (σ q)))
  ∧ isPreferred σ (Some pid) q = false
  ∧ (hasPromo σ promoCodes q = true
     ↔ is_Some (promoCodes !! pluginName (σ q))
       ∨ inherited (pluginName (σ q)) = true)
  ∧ hasPromo σ (<[pid := code]> promoCodes) q = hasPromo σ promoCodes q
  ∧ hasPromo σ {[pid := code]} q = inherited (pluginName (σ q))
  ∧ hasPromo σ (<[pluginName (σ q) := code]> promoCodes) q = true
  ∧ (∀ other, pluginName (σ other) ≠ pid →
       pickBestQuote_step σ (Some pid) promoCodes other q
       = pickBestQuote_step σ None promoCodes other q
       ∧ pickBestQuote_step σ (Some pid) promoCodes q other
         = pickBestQuote_step σ None promoCodes q other
       ∧ pickBestQuote_step σ preferPluginId (<[pid := code]> promoCodes) other q
         = pickBestQuote_step σ preferPluginId promoCodes other q
       ∧ pickBestQuote_step σ preferPluginId (<[pid := code]> promoCodes) q other
         = pickBestQuote_step σ preferPluginId promoCodes q other)
  ∧ (∀ other,
       pickBestQuote_step σ (Some (pluginName (σ q))) promoCodes q other = Ok q)
  ∧ (∀ other, pluginName (σ other) ≠ pluginName (σ q) →
       pickBestQuote_step σ (Some (pluginName (σ q))) promoCodes other q = Ok q)
  ∧ (∀ f a b,
       pickBestQuote_step (λ r, withPluginId (f r) (σ r)) preferPluginId promoCodes a b
       = pickBestQuote_step σ preferPluginId promoCodes a b).
Proof.
  intros Hid Hne.
  assert (pluginName (σ q) ≠ pid) as Hne' by done.
  assert (isPreferred σ (Some (pluginName (σ q))) q = true) as Hpref
    by by apply isPreferred_true.
  assert (∀ quote public, upgradeQuote quote swapPlugins = Ok public →
            quote_pluginId public = default (pluginName quote) (pluginId quote))
    as Hpublic.
  { intros quote public. unfold upgradeQuote.
    destruct (swapPlugins !! _); [by intros [= <-]|].
    destruct (inherited _); [|done]. destruct (quoteId quote); [done|].
    by intros [= <-]. }
  split.
  { intros plugin Hplugin. unfold upgradeQuote. rewrite Hid. simpl.
    rewrite Hplugin. eauto. }
  split.
  { intros public Hup%Hpublic. by rewrite Hid in Hup. }
  split.
  { intros q' plugin' Hnone Hplugin'. unfold upgradeQuote.
    rewrite Hnone. simpl. rewrite Hplugin'. eauto. }
  split.
  { intros q' public Hnone Hup%Hpublic. by rewrite Hnone in Hup. }
  split; [intros prefer; apply isPreferred_true|].
  split; [by apply isPreferred_other|].
  split; [apply hasPromo_true|].
  split; [by apply hasPromo_insert_other|].
  split.
  { unfold hasPromo. by rewrite lookup_singleton_ne. }
  split.
  { unfold hasPromo. by rewrite lookup_insert_eq. }
  split.
  { intros other Hother.
    repeat split; apply pickBestQuote_step_ext;
      rewrite ?isPreferred_undefined, ?isPreferred_other, ?hasPromo_insert_other;
      done. }
  split.
  { intros other. unfold pickBestQuote_step. by rewrite Hpref. }
  split.
  { intros other Hother. unfold pickBestQuote_step.
    rewrite (isPreferred_other σ (pluginName (σ q)) other Hother). by rewrite Hpref. }
  intros f a b. apply pickBestQuote_step_withPluginId.
Qed.

Lemma comparator_keys_on_pluginName_witness :
  let legacy :=
    {| pluginName := "legacy"; pluginId := Some "modern"; isEstimate := None;
       fromNativeAmount := 10; toNativeAmount := 10; quoteId := None |} in
  let σ := store_of [legacy; firmQuote "y" 10 10] in
  pickBestQuote_step σ (Some "modern") ∅ 1 0 = Ok 1%nat
  ∧ pickBestQuote_step σ (Some "legacy") ∅ 1 0 = Ok 0%nat
  ∧ pickBestQuote_step σ None {["modern" := "PROMO"]} 0 1
    = pickBestQuote_step σ None ∅ 0 1.
Proof.
  cbv zeta.
  pose proof (comparator_keys_on_pluginName
    (store_of [ {| pluginName := "legacy"; pluginId := Some "modern";
                   isEstimate := None; fromNativeAmount := 10;
                   toNativeAmount := 10; quoteId := None |};
                firmQuote "y" 10 10 ])
    None ∅ {["modern" := {| swapInfo := {| quoteUri := None |} |}]}
    0%nat "modern" "PROMO" eq_refl ltac:(vm_compute; discriminate))
    as (_ & _ & _ & _ & _ & _ & _ & _ & _ & _ & Hstep & _ & Hright & _).
  destruct (Hstep 1%nat ltac:(vm_compute; discriminate)) as (H1 & _ & H3 & _).
  split; [|split].
  - rewrite H1. by vm_compute.
  - apply (Hright 1%nat). vm_compute. discriminate.
  - exact H3.
Defined.

(** ** The error ranker *)

Lemma rankError_some e : 1 ≤ rankError (Some e) ≤ 6.
Proof. unfold rankError. destruct (kind e); lia. Qed.

Lemma rankError_range error : 0 ≤ rankError error ≤ 6.
Proof.
  destruct error as [e|]; [pose proof (rankError_some e); lia|]. simpl. lia.
Qed.

(** Ties between two limit errors of the same class, and the other ties
    with a left operand that is not [null]. *)
Lemma pickBestError_step_below aMin bMin ma mb :
  let a := Some {| kind := SwapBelowLimitError aMin; message := ma |} in
  let b := Some {| kind := SwapBelowLimitError bMin; message := mb |} in
  pickBestError_step a b = Ok (if bool_decide (aMin < bMin) then a else b).
Proof. done. Qed.

Lemma pickBestError_step_above aMax bMax ma mb :
  let a := Some {| kind := SwapAboveLimitError aMax; message := ma |} in
  let b := Some {| kind := SwapAboveLimitError bMax; message := mb |} in
  pickBestError_step a b = Ok (if bool_decide (bMax < aMax) then a else b).
Proof. done. Qed.

Lemma pickBestError_step_tie ea b :
  rankError (Some ea) = rankError b →
  rankError (Some ea) ≠ 5 → rankError (Some ea) ≠ 4 →
  pickBestError_step (Some ea) b = Ok (Some ea).
Proof.
  intros Heq H5 H4. unfold pickBestError_step. rewrite <- Heq.
  rewrite !decide_False by lia.
  unfold rankError in H5, H4. by destruct (kind ea).
Qed.

(** With a left operand that is not [null] the step returns one of its
    operands, not [null], of the larger rank. *)
Lemma pickBestError_step_some ea b :
  ∃ e, pickBestError_step (Some ea) b = Ok (Some e)
       ∧ (Some e = Some ea ∨ Some e = b)
       ∧ rankError (Some ea) ≤ rankError (Some e)
       ∧ rankError b ≤ rankError (Some e).
Proof.
  unfold pickBestError_step.
  destruct (decide (0 < rankError (Some ea) - rankError b)) as [Hgt|Hgt].
  { exists ea. repeat split; auto; lia. }
  destruct (decide (rankError (Some ea) - rankError b < 0)) as [Hlt|Hlt].
  { destruct b as [eb|].
    - exists eb. repeat split; auto; lia.
    - pose proof (rankError_some ea).
      change (rankError None) with 0 in Hlt. lia. }
  assert (rankError (Some ea) = rankError b) as Heq by lia. clear Hgt Hlt.
  destruct ea as [ka ma], b as [[kb mb]|]; simpl in *.
  - destruct ka, kb; simpl in *; try lia;
      try (eexists; repeat split; eauto; simpl; lia);
      case_match; eexists; repeat split; eauto; simpl; lia.
  - destruct ka; simpl in *; lia.
Qed.

Lemma reduce_from_pickBestError ea errors :
  ∃ e, reduce_from pickBestError_step (Some ea) errors = Ok (Some e)
       ∧ Some e ∈ Some ea :: errors
       ∧ ∀ x, x ∈ Some ea :: errors → rankError x ≤ rankError (Some e).
Proof.
  revert ea. induction errors as [|b errors IH]; intros ea.
  - exists ea. split; [done|]. split; [apply list_elem_of_here|].
    by intros x ->%list_elem_of_singleton.
  - destruct (pickBestError_step_some ea b) as (e1 & Hstep & Hor & Hle1 & Hle2).
    destruct (IH e1) as (e & Hred & Hmem & Hmax).
    exists e. split; [simpl; by rewrite Hstep|].
    assert (rankError (Some e1) ≤ rankError (Some e)) as Hle
      by apply Hmax, list_elem_of_here.
    split.
    + apply elem_of_cons in Hmem as [Hhead|Htail].
      * destruct Hor as [<-|<-]; rewrite Hhead.
        -- apply list_elem_of_here.
        -- apply list_elem_of_further, list_elem_of_here.
      * by do 2 apply list_elem_of_further.
    + intros x [->|[->|Hx]%elem_of_cons]%elem_of_cons; [lia|lia|].
      by apply Hmax, list_elem_of_further.
Qed.

(** On a non-empty array that does not start with two [null]s,
    [pickBestError] returns an element of the array of maximal rank. *)
Lemma pickBestError_maximal errors :
  errors ≠ [] →
  (∀ rest, errors ≠ None :: None :: rest) →
  ∃ error, pickBestError errors = Ok error
           ∧ error ∈ errors
           ∧ ∀ x, x ∈ errors → rankError x ≤ rankError error.
Proof.
  intros Hne Hnull. destruct errors as [|[ea|] errors]; [done| |].
  - destruct (reduce_from_pickBestError ea errors) as (e & ? & ? & ?). eauto.
  - destruct errors as [|[eb|] errors].
    + exists None. split; [done|]. split; [apply list_elem_of_here|].
      by intros x ->%list_elem_of_singleton.
    + destruct (reduce_from_pickBestError eb errors) as (e & Hred & Hmem & Hmax).
      assert (pickBestError_step None (Some eb) = Ok (Some eb)) as Hstep.
      { unfold pickBestError_step. pose proof (rankError_some eb).
        change (rankError None) with 0.
        rewrite decide_False, decide_True by lia. done. }
      exists (Some e). split.
      { unfold pickBestError. simpl. by rewrite Hstep. }
      split; [by apply list_elem_of_further|].
      intros x [->|Hx]%elem_of_cons; [|by apply Hmax].
      pose proof (rankError_some e). change (rankError None) with 0. lia.
    + by destruct (Hnull errors).
Qed.

(** C5: on a non-empty list of failures [pickBestError] should return an
    element of maximal rank, [null] ranking 0 and a tie keeping the left
    operand.  On two [null] failures, which [rankError] ranks 0 and 0,
    the tie branch reads [a.name] of [null]: [pickBestError] throws a
    [TypeError] and returns none of them. *)
Theorem pickBestError_two_null :
  rankError None = 0
  ∧ pickBestError [None; None]
    = Throw (TypeError "Cannot read property 'name' of null")
  ∧ ∀ error, pickBestError [None; None] ≠ Ok error.
Proof. split; [done|]. split; [done|]. intros error. by vm_compute. Qed.

(** ** Upgrade of the deprecated options *)

(** The two maps after the loop, entry by entry. *)
Lemma upgradeOptions_fold_lookup (plugins : gmap string EdgeSwapPluginOptions)
    (disabled0 : gmap string bool) (promoCodes0 : gmap string string) id :
  let maps := map_fold upgradeOptions_step (disabled0, promoCodes0) plugins in
  maps.1 !! id
  = match plugins !! id with
    | Some entry =>
        if truthy (plugin_disabled entry) then Some true else disabled0 !! id
    | None => disabled0 !! id
    end
  ∧ maps.2 !! id
    = match plugins !! id with
      | Some entry => from_option Some (promoCodes0 !! id) (plugin_promoCode entry)
      | None => promoCodes0 !! id
      end.
Proof.
  cbv zeta.
  apply (map_fold_weak_ind
    (λ maps plugins,
       maps.1 !! id
       = match plugins !! id with
         | Some entry =>
             if truthy (plugin_disabled entry) then Some true else disabled0 !! id
         | None => disabled0 !! id
         end
       ∧ maps.2 !! id
         = match plugins !! id with
           | Some entry =>
               from_option Some (promoCodes0 !! id) (plugin_promoCode entry)
           | None => promoCodes0 !! id
           end)).
  - by rewrite lookup_empty.
  - intros i entry m [d p] Hfresh [Hd Hp]. simpl in *.
    destruct (decide (i = id)) as [->|Hne].
    + rewrite lookup_insert_eq. rewrite Hfresh in Hd, Hp. split.
      * destruct (truthy (plugin_disabled entry)); [apply lookup_insert_eq|done].
      * destruct (plugin_promoCode entry); [apply lookup_insert_eq|done].
    + rewrite lookup_insert_ne by done. split.
      * destruct (truthy (plugin_disabled entry)); [by rewrite lookup_insert_ne|done].
      * destruct (plugin_promoCode entry); [by rewrite lookup_insert_ne|done].
Qed.

Lemma upgradeOptions_fold opts :
  upgradeOptions opts
  = map_fold upgradeOptions_step
      (default ∅ (opt_disabled opts), default ∅ (opt_promoCodes opts))
      (default ∅ (opt_plugins opts)).
Proof.
  unfold upgradeOptions. destruct (opt_plugins opts); [done|].
  simpl. by rewrite map_fold_empty.
Qed.

(** C2, as stated: an entry already present in the flat [promoCodes] map
    is never overwritten.  With [promoCodes = { x: 'FLAT' }] and
    [plugins = { x: { promoCode: 'LEGACY' } }] the loop assigns
    [promoCodes.x = 'LEGACY']. *)
Lemma upgradeOptions_overwrites_promoCode :
  let opts :=
    {| opt_preferPluginId := None;
       opt_disabled := None;
       opt_promoCodes := Some {["x" := "FLAT"]};
       opt_plugins :=
         Some {["x" := {| plugin_disabled := None; plugin_promoCode := Some "LEGACY" |}]} |} in
  default ∅ (opt_promoCodes opts) !! "x" = Some "FLAT"
  ∧ (upgradeOptions opts).2 !! "x" = Some "LEGACY"
  ∧ opt_promoCodes (opts_after_upgrade opts) = Some {["x" := "LEGACY"]}.
Proof.
  cbv zeta. split; [done|]. split; [by vm_compute|].
  unfold opts_after_upgrade, upgradeOptions. simpl.
  rewrite map_fold_singleton. simpl. by rewrite insert_singleton_eq.
Qed.

(** C2, amended: merging [opts.plugins] into the flat maps sets
    [disabled[id] = true] for every entry whose [disabled] flag is true,
    and sets [promoCodes[id]] to the entry's [promoCode] for every entry
    that has one, which replaces a code the flat map already held under
    that id.  It never clears an existing [disabled[id] = true] and never
    removes an entry of the flat [promoCodes] map; an id whose nested
    entry has no true [disabled] flag (no [promoCode]) keeps what the
    flat map had.  The two maps are the caller's own [opts.disabled] and
    [opts.promoCodes] objects when these were supplied, updated in
    place, and nothing else of [opts] changes. *)
Theorem upgradeOptions_merge opts :
  let plugins := default ∅ (opt_plugins opts) in
  let disabled0 := default ∅ (opt_disabled opts) in
  let promoCodes0 := default ∅ (opt_promoCodes opts) in
  let disabled := (upgradeOptions opts).1 in
  let promoCodes := (upgradeOptions opts).2 in
  (∀ id entry, plugins !! id = Some entry →
     plugin_disabled entry = Some true → disabled !! id = Some true)
  ∧ (∀ id entry code, plugins !! id = Some entry →
       plugin_promoCode entry = Some code → promoCodes !! id = Some code)
  ∧ (∀ id, disabled0 !! id = Some true → disabled !! id = Some true)
  ∧ (∀ id, is_Some (promoCodes0 !! id) → is_Some (promoCodes !! id))
  ∧ (∀ id, (∀ entry, plugins !! id = Some entry →
              truthy (plugin_disabled entry) = false) →
       disabled !! id = disabled0 !! id)
  ∧ (∀ id, (∀ entry, plugins !! id = Some entry →
              plugin_promoCode entry = None) →
       promoCodes !! id = promoCodes0 !! id)
  ∧ opts_after_upgrade opts
    = {| opt_preferPluginId := opt_preferPluginId opts;
         opt_disabled := match opt_disabled opts with
                         | Some _ => Some disabled
                         | None => None
                         end;
         opt_promoCodes := match opt_promoCodes opts with
                           | Some _ => Some promoCodes
                           | None => None
                           end;
         opt_plugins := opt_plugins opts |}.
Proof.
  cbv zeta. rewrite upgradeOptions_fold.
  pose proof (upgradeOptions_fold_lookup (default ∅ (opt_plugins opts))
    (default ∅ (opt_disabled opts)) (default ∅ (opt_promoCodes opts))) as Hlookup.
  cbv zeta in Hlookup.
  repeat split.
  - intros id entry Hentry Hflag. destruct (Hlookup id) as [-> _].
    by rewrite Hentry, Hflag.
  - intros id entry code Hentry Hcode. destruct (Hlookup id) as [_ ->].
    by rewrite Hentry, Hcode.
  - intros id Hset. destruct (Hlookup id) as [-> _].
    destruct (default ∅ (opt_plugins opts) !! id) as [entry|]; [|done].
    by destruct (truthy (plugin_disabled entry)).
  - intros id Hset. destruct (Hlookup id) as [_ ->].
    destruct (default ∅ (opt_plugins opts) !! id) as [entry|]; [|done].
    by destruct (plugin_promoCode entry).
  - intros id Hflag. destruct (Hlookup id) as [-> _].
    destruct (default ∅ (opt_plugins opts) !! id) as [entry|]; [|done].
    by rewrite (Hflag entry).
  - intros id Hcode. destruct (Hlookup id) as [_ ->].
    destruct (default ∅ (opt_plugins opts) !! id) as [entry|]; [|done].
    by rewrite (Hcode entry).
  - unfold opts_after_upgrade. rewrite upgradeOptions_fold.
    by destruct (opt_disabled opts), (opt_promoCodes opts).
Qed.

(** ** Plugin selection *)

Lemma examplePlugins_ids id :
  is_Some (examplePlugins !! id) → id = "x" ∨ id = "y" ∨ id = "z".
Proof.
  intros [plugin Hplugin]. unfold examplePlugins in Hplugin.
  destruct (decide (id = "x")) as [|Hx]; [by left|].
  destruct (decide (id = "y")) as [|Hy]; [by right; left|].
  destruct (decide (id = "z")) as [|Hz]; [by right; right|].
  by rewrite !lookup_insert_ne, lookup_singleton_ne in Hplugin.
Qed.

Section Selection.
Context {EdgeSwapRequest JsonObject : Type}.
Variable σ : store.
Variable swapPlugins : gmap string EdgeSwapPlugin.
Variable account : @AccountState JsonObject.
Variable fuzzyTimeout :
  list (@FetchCall EdgeSwapRequest JsonObject) → list ref + list (option SwapError).
Variable close : ref → settled.
Variable request : EdgeSwapRequest.

Lemma foldl_startRequests_step disabled promoCodes ids promises :
  foldl (startRequests_step account request disabled promoCodes) promises ids
  = promises ++ (fetchCallOf account request promoCodes <$> filter (λ id, selected account disabled id) ids).
Proof.
  revert promises. induction ids as [|id ids IH]; intros promises.
  - simpl. by rewrite app_nil_r.
  - simpl. rewrite IH, filter_cons.
    destruct (decide (selected account disabled id)) as [Hsel|Hsel];
      unfold selected in Hsel; unfold startRequests_step;
      destruct (accountEnabled account id), (isDisabled disabled id);
      simpl in *; try done.
    by rewrite <- app_assoc.
Qed.

Lemma startRequests_filter disabled promoCodes :
  startRequests swapPlugins account request disabled promoCodes
  = fetchCallOf account request promoCodes <$> filter (λ id, selected account disabled id) (pluginIds swapPlugins).
Proof. unfold startRequests. by rewrite foldl_startRequests_step. Qed.

Lemma elem_of_pluginIds id : id ∈ pluginIds swapPlugins ↔ is_Some (swapPlugins !! id).
Proof.
  unfold pluginIds. rewrite list_elem_of_fmap. split.
  - intros ([i plugin] & -> & Hin). apply elem_of_map_to_list in Hin. by exists plugin.
  - intros [plugin Hplugin]. exists (id, plugin). split; [done|].
    by apply elem_of_map_to_list.
Qed.

Lemma NoDup_pluginIds : NoDup (pluginIds swapPlugins).
Proof. apply NoDup_fst_map_to_list. Qed.

Lemma fetchedIds_fetch (promises : list (@FetchCall EdgeSwapRequest JsonObject)) :
  fetchedIds (Fetch <$> promises) = call_pluginId <$> promises.
Proof.
  induction promises as [|call promises IH]; [done|].
  unfold fetchedIds in *. simpl. by f_equal.
Qed.

Lemma fetchedIds_app (t1 t2 : list (@event EdgeSwapRequest JsonObject)) :
  fetchedIds (t1 ++ t2) = fetchedIds t1 ++ fetchedIds t2.
Proof. unfold fetchedIds. apply omap_app. Qed.

Lemma fetchedIds_closeUnused bestQuote quotes :
  fetchedIds (closeUnused (EdgeSwapRequest := EdgeSwapRequest)
                (JsonObject := JsonObject) close bestQuote quotes) = [].
Proof.
  unfold closeUnused.
  assert (∀ trace : list (@event EdgeSwapRequest JsonObject),
    fetchedIds trace = [] →
    fetchedIds
      (foldl (λ trace quote,
                if decide (quote ≠ bestQuote)
                then trace ++ [Close quote (catch_undefined (close quote))]
                else trace) trace quotes) = []) as Hgen.
  { induction quotes as [|q quotes IH]; intros trace Htrace; [done|].
    simpl. apply IH. case_decide; [|done].
    by rewrite fetchedIds_app, Htrace. }
  by apply Hgen.
Qed.

(** Every [fetchSwapQuote] call of the plugins is made by the loop,
    whichever way the promises settle afterwards. *)
Lemma fetchSwapQuote_fetchedIds opts :
  fetchedIds (fetchSwapQuote σ swapPlugins account fuzzyTimeout close request opts).1
  = filter (λ id, selected account (upgradeOptions opts).1 id) (pluginIds swapPlugins).
Proof.
  unfold fetchSwapQuote. destruct (upgradeOptions opts) as [disabled promoCodes].
  simpl.
  assert (fetchedIds (Fetch <$> startRequests swapPlugins account request disabled promoCodes)
          = filter (λ id, selected account disabled id) (pluginIds swapPlugins)) as Hfetch.
  { rewrite fetchedIds_fetch, startRequests_filter, <- list_fmap_compose.
    simpl. apply list_fmap_id. }
  case_bool_decide; [done|].
  destruct (fuzzyTimeout _) as [quotes|errors]; [|done].
  unfold onQuotes. destruct (pickBestQuote _ _ _ _) as [bestQuote|e]; simpl.
  - by rewrite fetchedIds_app, Hfetch, fetchedIds_closeUnused, app_nil_r.
  - by rewrite app_nil_r.
Qed.

End Selection.

Section FetchSwapQuoteFacts.
Context {EdgeSwapRequest JsonObject : Type}.
Variable σ : store.
Variable swapPlugins : gmap string EdgeSwapPlugin.
Variable account : @AccountState JsonObject.
Variable fuzzyTimeout :
  list (@FetchCall EdgeSwapRequest JsonObject) → list ref + list (option SwapError).
Variable close : ref → settled.
Variable request : EdgeSwapRequest.

(** The upgrade stores [true] only, so it keeps the map well typed. *)
Lemma upgradeOptions_typed opts :
  disabledMapTyped (default ∅ (opt_disabled opts)) →
  disabledMapTyped (upgradeOptions opts).1.
Proof.
  intros Htyped id flag. rewrite upgradeOptions_fold.
  destruct (upgradeOptions_fold_lookup (default ∅ (opt_plugins opts))
    (default ∅ (opt_disabled opts)) (default ∅ (opt_promoCodes opts)) id) as [-> _].
  destruct (default ∅ (opt_plugins opts) !! id) as [entry|]; [|by apply Htyped].
  destruct (truthy (plugin_disabled entry)); [congruence|by apply Htyped].
Qed.

(** [disabled[pluginId]] is truthy for an own entry that holds [true]
    and for a missing entry under an inherited name. *)
Lemma isDisabled_true (disabled : gmap string bool) id :
  isDisabled disabled id = true
  ↔ disabled !! id = Some true ∨ (disabled !! id = None ∧ inherited id = true).
Proof.
  unfold isDisabled. destruct (disabled !! id) as [[]|]; naive_solver.
Qed.

(** The loop skips a plugin that is disabled for the account or for
    which [disabled[pluginId]] is truthy. *)
Lemma selected_true (disabled : gmap string bool) id :
  selected account disabled id = true
  ↔ accountEnabled account id = true ∧ isDisabled disabled id = false.
Proof.
  unfold selected.
  destruct (accountEnabled account id), (isDisabled disabled id); naive_solver.
Qed.

(** In a map whose entries all hold [true], [disabled[pluginId]] is falsy
    exactly for the ids without entry, inherited names apart. *)
Lemma disabledMapTyped_absent (disabled : gmap string bool) id :
  disabledMapTyped disabled →
  inherited id = false →
  isDisabled disabled id = false ↔ disabled !! id = None.
Proof.
  intros Htyped Hown. unfold isDisabled.
  destruct (disabled !! id) as [flag|] eqn:Hflag; [|done].
  rewrite (Htyped id flag Hflag). naive_solver.
Qed.

(** A plugin is enabled for the account unless its setting says
    [enabled: false]. *)
Lemma accountEnabled_default id :
  accountEnabled account id = true
  ↔ ∀ settings, swapSettings account !! id = Some settings →
                enabled settings ≠ Some false.
Proof.
  unfold accountEnabled.
  destruct (swapSettings account !! id) as [[[[]|]]|]; simpl; split; try done.
  - intros _ settings [= <-]. done.
  - intros H. by destruct (H {| enabled := Some false |}).
  - intros _ settings [= <-]. done.
Qed.

Lemma length_filter_eq_NoDup (P : string) (ids : list string) :
  NoDup ids →
  length (filter (P =.) ids) = if decide (P ∈ ids) then 1%nat else 0%nat.
Proof.
  induction 1 as [|id ids Hnotin Hnodup IH]; [done|].
  rewrite filter_cons. destruct (decide (P = id)) as [<-|Hne].
  - simpl. rewrite IH. rewrite decide_False by done.
    rewrite decide_True; [done|]. apply list_elem_of_here.
  - rewrite IH. destruct (decide (P ∈ ids)) as [Hin|Hin].
    + rewrite decide_True; [done|]. by apply list_elem_of_further.
    + rewrite decide_False; [done|]. intros [?|?]%elem_of_cons; done.
Qed.

(** C7, as stated: a plugin that is present in the flat [disabled] map
    is never called.  With [disabled = { x: false }] the plugin [x],
    enabled for the account, has an entry in the map, and
    [disabled[pluginId]] is falsy: [fetchSwapQuote] calls it. *)
Lemma fetchSwapQuote_calls_plugin_disabled_false :
  let started :=
    fetchedIds
      (fetchSwapQuote (EdgeSwapRequest := unit) exampleQuotes examplePlugins
         exampleAccount (λ _, inl [0; 1]%nat) (λ _, Rejected) tt optsFalseEntry).1 in
  is_Some (examplePlugins !! "x")
  ∧ accountEnabled exampleAccount "x" = true
  ∧ (upgradeOptions optsFalseEntry).1 !! "x" = Some false
  ∧ length (filter ("x" =.) started) = 1%nat.
Proof. cbv zeta. split; [by eexists|]. by vm_compute. Qed.

(** C7, amended: for every plugin [P] of the registry, [fetchSwapQuote]
    calls [P] exactly once if [P] is enabled for the account (by default
    when the account has no setting or the setting has no [enabled]
    field) and [disabled[P]] is not truthy in the merged map, and not at
    all otherwise.  [disabled[P]] is truthy when the map holds [true]
    for [P], so that such a plugin is never called, and also when the
    map has no entry for [P] and [P] is a name that every object
    inherits; an entry holding [false] does not disable [P].  In a map
    that holds nothing but [true], and for a name that is not inherited,
    [disabled[P]] not being truthy is the same as the map having no
    entry for [P].  The calls are those of the loop, one per selected
    plugin, whatever happens once the promises settle. *)
Theorem fetchSwapQuote_calls_selected_plugins opts (P : string) :
  is_Some (swapPlugins !! P) →
  let disabled := (upgradeOptions opts).1 in
  let promoCodes := (upgradeOptions opts).2 in
  let started :=
    fetchedIds (fetchSwapQuote σ swapPlugins account fuzzyTimeout close request opts).1 in
  (length (filter (P =.) started) = 1%nat
   ↔ accountEnabled account P = true ∧ isDisabled disabled P = false)
  ∧ (length (filter (P =.) started) = 0%nat
     ↔ ¬ (accountEnabled account P = true ∧ isDisabled disabled P = false))
  ∧ (isDisabled disabled P = true
     ↔ disabled !! P = Some true ∨ (disabled !! P = None ∧ inherited P = true))
  ∧ (disabled !! P = Some true → P ∉ started)
  ∧ (disabled !! P = None → inherited P = true → P ∉ started)
  ∧ NoDup started
  ∧ (∀ id, id ∈ started
           ↔ is_Some (swapPlugins !! id)
             ∧ accountEnabled account id = true ∧ isDisabled disabled id = false)
  ∧ started
    = call_pluginId <$> startRequests swapPlugins account request disabled promoCodes
  ∧ (accountEnabled account P = true
     ↔ ∀ settings, swapSettings account !! P = Some settings →
                   enabled settings ≠ Some false)
  ∧ (disabledMapTyped (default ∅ (opt_disabled opts)) →
     inherited P = false →
     isDisabled disabled P = false ↔ disabled !! P = None).
Proof.
  intros HP. cbv zeta.
  rewrite fetchSwapQuote_fetchedIds.
  set (disabled := (upgradeOptions opts).1) in *.
  set (started := filter (λ id, selected account disabled id) (pluginIds swapPlugins)).
  assert (NoDup started) as Hnodup by apply NoDup_filter, NoDup_pluginIds.
  assert (∀ id, id ∈ started
                ↔ is_Some (swapPlugins !! id)
                  ∧ accountEnabled account id = true
                  ∧ isDisabled disabled id = false) as Hin.
  { intros id. unfold started. rewrite list_elem_of_filter, elem_of_pluginIds.
    rewrite Is_true_true, selected_true. naive_solver. }
  rewrite (length_filter_eq_NoDup P started Hnodup).
  assert (P ∈ started
          ↔ accountEnabled account P = true ∧ isDisabled disabled P = false)
    as HinP by (rewrite Hin; naive_solver).
  assert (isDisabled disabled P = true → P ∉ started) as Hskip.
  { intros Hflag [_ Hnot]%HinP. congruence. }
  split; [|split; [|split; [|split; [|split; [|split; [|split; [|split; [|split]]]]]]]].
  - rewrite <- HinP. by destruct (decide (P ∈ started)).
  - rewrite <- HinP. by destruct (decide (P ∈ started)).
  - apply isDisabled_true.
  - intros Hflag. apply Hskip, isDisabled_true. by left.
  - intros Hnone Hproto. apply Hskip, isDisabled_true. by right.
  - done.
  - done.
  - rewrite startRequests_filter, <- list_fmap_compose. simpl.
    symmetry. apply list_fmap_id.
  - apply accountEnabled_default.
  - intros Htyped Hown. apply disabledMapTyped_absent; [|done].
    by apply upgradeOptions_typed.
Qed.

(** C6, as stated: when every plugin of the registry is disabled for the
    account or present in the [disabled] map, no plugin is called.  With
    [disabled = { x: false, y: true }] and [z] disabled for the account,
    every plugin of the registry is one or the other, but
    [disabled['x']] is falsy: [fetchSwapQuote] calls [x] and does not
    throw the error. *)
Lemma fetchSwapQuote_calls_despite_disabled_entries :
  let run :=
    fetchSwapQuote (EdgeSwapRequest := unit) exampleQuotes examplePlugins
      exampleAccount (λ _, inl [0]%nat) (λ _, Rejected) tt optsFalseAndTrue in
  (∀ id, is_Some (examplePlugins !! id) →
         accountEnabled exampleAccount id = false
         ∨ is_Some ((upgradeOptions optsFalseAndTrue).1 !! id))
  ∧ fetchedIds run.1 = ["x"]
  ∧ run.2 ≠ Throw (Error "No swap providers enabled").
Proof.
  cbv zeta. split; [|split].
  - intros id [-> | [-> | ->]]%examplePlugins_ids.
    + right. vm_compute. eauto.
    + right. vm_compute. eauto.
    + left. by vm_compute.
  - by vm_compute.
  - by vm_compute.
Qed.

(** C6, amended: [fetchSwapQuote] throws
    [Error('No swap providers enabled')] without having called any
    plugin (its trace is empty, and [fuzzyTimeout] is never reached)
    exactly when every plugin of the registry is disabled for the
    account or has a truthy [disabled[pluginId]] in the merged map: an
    entry that holds [true], or no entry under an inherited name.  An
    entry that holds [false] does not count. *)
Theorem fetchSwapQuote_no_active_providers opts :
  let disabled := (upgradeOptions opts).1 in
  (∀ id, is_Some (swapPlugins !! id) →
         accountEnabled account id = false
         ∨ disabled !! id = Some true
         ∨ (disabled !! id = None ∧ inherited id = true))
  ↔ fetchSwapQuote σ swapPlugins account fuzzyTimeout close request opts
    = ([], Throw (Error "No swap providers enabled")).
Proof.
  cbv zeta.
  assert (startRequests swapPlugins account request
            (upgradeOptions opts).1 (upgradeOptions opts).2 = []
          ↔ ∀ id, is_Some (swapPlugins !! id) →
                  accountEnabled account id = false
                  ∨ (upgradeOptions opts).1 !! id = Some true
                  ∨ ((upgradeOptions opts).1 !! id = None ∧ inherited id = true))
    as Hnone.
  { rewrite startRequests_filter. split.
    - intros Hnil%fmap_nil_inv id Hid. rewrite <- isDisabled_true.
      destruct (accountEnabled account id) eqn:Hen; [|by left].
      destruct (isDisabled (upgradeOptions opts).1 id) eqn:Hdis; [by right|].
      exfalso. apply (not_elem_of_nil id). rewrite <- Hnil.
      apply list_elem_of_filter. split; [|by apply elem_of_pluginIds].
      apply Is_true_true, selected_true. done.
    - intros Hall.
      assert (filter (λ id, selected account (upgradeOptions opts).1 id)
                (pluginIds swapPlugins) = []) as ->; [|done].
      apply elem_of_nil_inv.
      intros id [Hsel Hid%elem_of_pluginIds]%list_elem_of_filter.
      apply Is_true_true, selected_true in Hsel as [Hen Hdis].
      specialize (Hall id Hid). rewrite <- isDisabled_true in Hall.
      destruct Hall; congruence. }
  rewrite <- Hnone. unfold fetchSwapQuote.
  destruct (upgradeOptions opts) as [disabled promoCodes]. simpl.
  destruct (startRequests swapPlugins account request disabled promoCodes)
    as [|call promises] eqn:Hstart; simpl.
  - done.
  - split; [done|].
    destruct (fuzzyTimeout (call :: promises)) as [quotes|errors]; [|done].
    by destruct (onQuotes _ _ _ _ _ _).
Qed.

End FetchSwapQuoteFacts.

(** ** Unused quotes *)

Section CloseUnused.
Context {EdgeSwapRequest JsonObject : Type}.
Variable σ : store.
Variable swapPlugins : gmap string EdgeSwapPlugin.
Variable account : @AccountState JsonObject.
Variable fuzzyTimeout :
  list (@FetchCall EdgeSwapRequest JsonObject) → list ref + list (option SwapError).
Variable close : ref → settled.
Variable request : EdgeSwapRequest.

Lemma catch_undefined_fulfilled p : catch_undefined p = Fulfilled.
Proof. by destruct p. Qed.

(** The loop closes the array slots that do not hold the best quote, in
    order, and every promise it leaves behind is fulfilled. *)
Lemma closeUnused_filter bestQuote quotes :
  closeUnused (EdgeSwapRequest := EdgeSwapRequest) (JsonObject := JsonObject)
    close bestQuote quotes
  = (λ quote, Close quote Fulfilled) <$> filter (λ quote, quote ≠ bestQuote) quotes.
Proof.
  unfold closeUnused.
  assert (∀ trace : list (@event EdgeSwapRequest JsonObject),
    foldl (λ trace quote,
             if decide (quote ≠ bestQuote)
             then trace ++ [Close quote (catch_undefined (close quote))]
             else trace) trace quotes
    = trace ++ ((λ quote, Close quote Fulfilled)
                  <$> filter (λ quote, quote ≠ bestQuote) quotes)) as Hgen.
  { induction quotes as [|q quotes IH]; intros trace.
    - simpl. by rewrite app_nil_r.
    - simpl. rewrite IH, filter_cons. case_decide; [|done].
      by rewrite catch_undefined_fulfilled, <- app_assoc. }
  by rewrite Hgen.
Qed.

Lemma closedQuotes_app (t1 t2 : list (@event EdgeSwapRequest JsonObject)) :
  closedQuotes (t1 ++ t2) = closedQuotes t1 ++ closedQuotes t2.
Proof. unfold closedQuotes. apply omap_app. Qed.

Lemma closedQuotes_fetch (promises : list (@FetchCall EdgeSwapRequest JsonObject)) :
  closedQuotes (Fetch <$> promises) = [].
Proof.
  induction promises as [|call promises IH]; [done|].
  unfold closedQuotes in *. by simpl.
Qed.

Lemma closedQuotes_close (quotes : list ref) :
  closedQuotes ((λ quote, Close (EdgeSwapRequest := EdgeSwapRequest)
                            (JsonObject := JsonObject) quote Fulfilled) <$> quotes)
  = quotes.
Proof.
  induction quotes as [|q quotes IH]; [done|].
  unfold closedQuotes in *. simpl. by f_equal.
Qed.

(** C9: on the success path (the loop started at least one request and
    [fuzzyTimeout] resolved with a non-empty array of quotes, each with a
    non-zero [fromNativeAmount] and a plugin of the registry), whatever
    the promises returned by [close()] do, [fetchSwapQuote] returns the
    upgrade of the best quote, which is one of the quotes of the array;
    before that it has called [close] on every slot of the array that
    does not hold the best quote, each time leaving a fulfilled promise
    behind (a rejection is caught), and it has not called [close] on the
    best quote. *)
Theorem fetchSwapQuote_closes_unused_quotes opts quotes :
  let preferPluginId := opt_preferPluginId opts in
  let disabled := (upgradeOptions opts).1 in
  let promoCodes := (upgradeOptions opts).2 in
  let promises := startRequests swapPlugins account request disabled promoCodes in
  promises ≠ [] →
  fuzzyTimeout promises = inl quotes →
  quotes ≠ [] →
  Forall (wellFormed σ) quotes →
  (∀ q, q ∈ quotes →
        is_Some (swapPlugins !! default (pluginName (σ q)) (pluginId (σ q)))) →
  ∃ bestQuote public,
    pickBestQuote σ preferPluginId promoCodes quotes = Ok bestQuote
    ∧ bestQuote ∈ quotes
    ∧ fetchSwapQuote σ swapPlugins account fuzzyTimeout close request opts
      = ((Fetch <$> promises)
           ++ ((λ quote, Close quote Fulfilled)
                 <$> filter (λ quote, quote ≠ bestQuote) quotes),
         Ok public)
    ∧ upgradeQuote (σ bestQuote) swapPlugins = Ok public
    ∧ quote_spread public = σ bestQuote
    ∧ (∀ q, q ∈ closedQuotes
                  (fetchSwapQuote σ swapPlugins account fuzzyTimeout close request opts).1
            ↔ q ∈ quotes ∧ q ≠ bestQuote).
Proof.
  cbv zeta. intros Hstarted Hsettle Hne Hwf Hregistry.
  destruct (pickBestQuote_maximal σ (opt_preferPluginId opts)
              (upgradeOptions opts).2 quotes Hne Hwf) as (bestQuote & Hbest & Hin & _).
  destruct (Hregistry bestQuote Hin) as [plugin Hplugin].
  assert (∃ public, upgradeQuote (σ bestQuote) swapPlugins = Ok public
                    ∧ quote_spread public = σ bestQuote) as (public & Hup & Hraw).
  { unfold upgradeQuote. rewrite Hplugin. eauto. }
  assert (fetchSwapQuote σ swapPlugins account fuzzyTimeout close request opts
          = ((Fetch <$> startRequests swapPlugins account request
                          (upgradeOptions opts).1 (upgradeOptions opts).2)
               ++ ((λ quote, Close quote Fulfilled)
                     <$> filter (λ quote, quote ≠ bestQuote) quotes),
             Ok public)) as Hrun.
  { unfold fetchSwapQuote.
    destruct (upgradeOptions opts) as [disabled promoCodes]. simpl in *.
    rewrite bool_decide_eq_false_2.
    2: { destruct (startRequests _ _ _ _ _); [done|]. simpl. lia. }
    rewrite Hsettle. unfold onQuotes. rewrite Hbest.
    by rewrite closeUnused_filter, Hup. }
  exists bestQuote, public.
  split; [done|]. split; [done|]. split; [done|]. split; [done|]. split; [done|].
  intros q. rewrite Hrun. simpl.
  rewrite closedQuotes_app, closedQuotes_fetch, closedQuotes_close. simpl.
  rewrite list_elem_of_filter. tauto.
Qed.

End CloseUnused.

(** ** Instances on the example registry *)

Lemma fetchSwapQuote_no_active_providers_witness :
  fetchSwapQuote (EdgeSwapRequest := unit) exampleQuotes examplePlugins
    exampleAccount (λ _, inl [0; 1]%nat) (λ _, Rejected) tt optsAllDisabled
  = ([], Throw (Error "No swap providers enabled")).
Proof.
  apply fetchSwapQuote_no_active_providers.
  intros id [-> | [-> | ->]]%examplePlugins_ids.
  - right. left. by vm_compute.
  - right. left. by vm_compute.
  - left. by vm_compute.
Defined.

Lemma fetchSwapQuote_calls_selected_plugins_witness :
  let started :=
    fetchedIds
      (fetchSwapQuote (EdgeSwapRequest := unit) exampleQuotes examplePlugins
         exampleAccount (λ _, inl [0; 1]%nat) (λ _, Rejected) tt optsOneDisabled).1 in
  length (filter ("x" =.) started) = 1%nat
  ∧ length (filter ("y" =.) started) = 0%nat.
Proof.
  cbv zeta. split.
  - destruct (fetchSwapQuote_calls_selected_plugins (EdgeSwapRequest := unit)
                exampleQuotes examplePlugins exampleAccount (λ _, inl [0; 1]%nat)
                (λ _, Rejected) tt optsOneDisabled "x" ltac:(vm_compute; eauto))
      as (Honce & _).
    apply Honce. by vm_compute.
  - destruct (fetchSwapQuote_calls_selected_plugins (EdgeSwapRequest := unit)
                exampleQuotes examplePlugins exampleAccount (λ _, inl [0; 1]%nat)
                (λ _, Rejected) tt optsOneDisabled "y" ltac:(vm_compute; eauto))
      as (_ & Hnever & _).
    apply Hnever. vm_compute. by intros [_ ?].
Defined.

Lemma fetchSwapQuote_closes_unused_quotes_witness :
  ∃ bestQuote public,
    pickBestQuote exampleQuotes None ∅ [0; 1; 2]%nat = Ok bestQuote
    ∧ bestQuote ∈ [0; 1; 2]%nat
    ∧ fetchSwapQuote (EdgeSwapRequest := unit) exampleQuotes examplePlugins
        exampleAccount (λ _, inl [0; 1; 2]%nat) (λ _, Rejected) tt optsEmpty
      = ((Fetch <$> startRequests examplePlugins exampleAccount tt ∅ ∅)
           ++ ((λ quote, Close quote Fulfilled)
                 <$> filter (λ quote, quote ≠ bestQuote) [0; 1; 2]%nat),
         Ok public)
    ∧ upgradeQuote (exampleQuotes bestQuote) examplePlugins = Ok public
    ∧ quote_spread public = exampleQuotes bestQuote
    ∧ (∀ q, q ∈ closedQuotes
                  (fetchSwapQuote (EdgeSwapRequest := unit) exampleQuotes
                     examplePlugins exampleAccount (λ _, inl [0; 1; 2]%nat)
                     (λ _, Rejected) tt optsEmpty).1
            ↔ q ∈ [0; 1; 2]%nat ∧ q ≠ bestQuote).
Proof.
  apply (fetchSwapQuote_closes_unused_quotes (EdgeSwapRequest := unit)
           exampleQuotes examplePlugins exampleAccount (λ _, inl [0; 1; 2]%nat)
           (λ _, Rejected) tt optsEmpty [0; 1; 2]%nat).
  - vm_compute. discriminate.
  - reflexivity.
  - discriminate.
  - repeat constructor; vm_compute; discriminate.
  - intros q Hq.
    repeat (apply elem_of_cons in Hq as [->|Hq]; [vm_compute; by eauto|]).
    by apply not_elem_of_nil in Hq.
Defined.

(** * Further properties of [swap-api.js] *)

(** ** What [pickBestQuote] returns and when it throws *)

Section PickBestQuoteFacts.
Variable σ : store.
Variable preferPluginId : option string.
Variable promoCodes : gmap string string.

Local Abbreviation step := (pickBestQuote_step σ preferPluginId promoCodes).
Local Abbreviation beats := (outranks σ preferPluginId promoCodes).

(** The step returns one of its operands, and throws only out of [div],
    on a zero [fromNativeAmount]. *)
Lemma pickBestQuote_step_cases a b :
  match step a b with
  | Ok c => c = a ∨ c = b
  | Throw e =>
      e = AssertionError "Assertion failed"
      ∧ (fromNativeAmount (σ a) = 0 ∨ fromNativeAmount (σ b) = 0)
  end.
Proof.
  unfold pickBestQuote_step, biggystring.div.
  destruct (isPreferred σ preferPluginId a), (isPreferred σ preferPluginId b),
    (hasPromo σ promoCodes a), (hasPromo σ promoCodes b),
    (default true (isEstimate (σ a))), (default true (isEstimate (σ b)));
    simpl; auto;
    destruct (decide (fromNativeAmount (σ a) = 0)),
      (decide (fromNativeAmount (σ b) = 0)); simpl; auto;
    destruct (biggystring.gt _ _); auto.
Qed.

Lemma reduce_from_pickBestQuote_cases quotes acc :
  match reduce_from step acc quotes with
  | Ok w => w ∈ acc :: quotes
  | Throw e =>
      e = AssertionError "Assertion failed"
      ∧ ∃ q, q ∈ acc :: quotes ∧ fromNativeAmount (σ q) = 0
  end.
Proof.
  revert acc. induction quotes as [|b quotes IH]; intros acc.
  - simpl. apply list_elem_of_here.
  - simpl. pose proof (pickBestQuote_step_cases acc b) as Hstep.
    destruct (step acc b) as [c|e]; simpl.
    + specialize (IH c). destruct (reduce_from step c quotes) as [w|e].
      * apply elem_of_cons in IH as [->|Hw].
        -- destruct Hstep as [->| ->].
           ++ apply list_elem_of_here.
           ++ apply list_elem_of_further, list_elem_of_here.
        -- by do 2 apply list_elem_of_further.
      * destruct IH as (He & q & Hq & Hzero). split; [done|]. exists q.
        split; [|done]. apply elem_of_cons in Hq as [->|Hq].
        -- destruct Hstep as [->| ->].
           ++ apply list_elem_of_here.
           ++ apply list_elem_of_further, list_elem_of_here.
        -- by do 2 apply list_elem_of_further.
    + destruct Hstep as [He [Hzero|Hzero]]; (split; [done|]).
      * exists acc. split; [apply list_elem_of_here|done].
      * exists b. split; [apply list_elem_of_further, list_elem_of_here|done].
Qed.

(** X1: whatever the quotes, [pickBestQuote] either returns one of the
    elements of the array, or throws the [TypeError] of [reduce] on an
    empty array, or throws the assertion of [div], which needs a quote of
    the array with a zero [fromNativeAmount].  It throws nothing else. *)
Theorem pickBestQuote_outcomes quotes :
  match pickBestQuote σ preferPluginId promoCodes quotes with
  | Ok w => w ∈ quotes
  | Throw e =>
      (quotes = []
       ∧ e = TypeError "Reduce of empty array with no initial value")
      ∨ (e = AssertionError "Assertion failed"
         ∧ ∃ q, q ∈ quotes ∧ fromNativeAmount (σ q) = 0)
  end.
Proof.
  unfold pickBestQuote, reduce. destruct quotes as [|a quotes]; [by left|].
  pose proof (reduce_from_pickBestQuote_cases quotes a) as Hfold.
  destruct (reduce_from step a quotes); [done|by right].
Qed.

(** X4: [pickBestQuote] returns the leftmost best quote.  On an array of
    quotes with non-zero [fromNativeAmount], the array splits around the
    returned slot so that the winner beats every quote before it (the
    step returns the winner, a different quote, when that quote is its
    left operand) and is kept against every quote after it (the step
    with the winner as left operand returns the winner). *)
Theorem pickBestQuote_leftmost_best quotes w :
  Forall (wellFormed σ) quotes →
  pickBestQuote σ preferPluginId promoCodes quotes = Ok w →
  ∃ before after,
    quotes = before ++ w :: after
    ∧ (∀ q, q ∈ before → step q w = Ok w ∧ q ≠ w)
    ∧ (∀ q, q ∈ after → step w q = Ok w).
Proof.
  intros Hall Hbest. destruct quotes as [|a quotes]; [done|].
  apply Forall_cons in Hall as [Ha Hall]. unfold pickBestQuote, reduce in Hbest.
  assert (wellFormed σ w) as Hw.
  { pose proof (reduce_from_pickBestQuote_cases quotes a) as Hin.
    rewrite Hbest in Hin. apply elem_of_cons in Hin as [->|Hin]; [done|].
    by eapply Forall_forall in Hall. }
  assert (∀ q, wellFormed σ q → beats w q → step q w = Ok w ∧ q ≠ w) as Hbefore.
  { intros q Hq Hout. split.
    - rewrite pickBestQuote_step_outranks by done. by rewrite decide_True.
    - intros ->. by apply outranks_irrefl in Hout. }
  assert (∀ q, wellFormed σ q → ¬ beats q w → step w q = Ok w) as Hafter.
  { intros q Hq Hout. rewrite pickBestQuote_step_outranks by done.
    by rewrite decide_False. }
  destruct (reduce_from_leftmost σ preferPluginId promoCodes quotes a w Ha Hall Hbest)
    as [[-> Hl2]|(l1 & l2 & -> & Hwa & Hl1 & Hl2)].
  - exists [], quotes. split; [done|]. split; [by intros q ?%not_elem_of_nil|].
    intros q Hq. apply Hafter; [|by apply Hl2]. by eapply Forall_forall in Hall.
  - exists (a :: l1), l2. split; [done|].
    apply Forall_app in Hall as [Hall1 Hall2].
    apply Forall_cons in Hall2 as [_ Hall2]. split.
    + intros q [->|Hq]%elem_of_cons; [by apply Hbefore|].
      apply Hbefore; [|by apply Hl1]. by eapply Forall_forall in Hall1.
    + intros q Hq. apply Hafter; [|by apply Hl2]. by eapply Forall_forall in Hall2.
Qed.

End PickBestQuoteFacts.

Section PickBestQuoteTiers.
Variable σ : store.
Variable preferPluginId : option string.
Variable promoCodes : gmap string string.

(** X2: a firm quote beats an estimate before any rate is looked at.
    When no quote of the array comes from the preferred plugin, all have
    the same promo status, and one of them is firm ([isEstimate] is
    [false]), [pickBestQuote] returns a firm quote, whatever the rates
    of the estimates (a quote without [isEstimate] counts as an
    estimate).  The quotes have non-zero [fromNativeAmount]. *)
Theorem pickBestQuote_firm_over_estimate quotes firm :
  Forall (wellFormed σ) quotes →
  (∀ q, q ∈ quotes → isPreferred σ preferPluginId q = false) →
  (∀ q, q ∈ quotes → hasPromo σ promoCodes q = hasPromo σ promoCodes firm) →
  firm ∈ quotes →
  isEstimate (σ firm) = Some false →
  ∃ w, pickBestQuote σ preferPluginId promoCodes quotes = Ok w
       ∧ w ∈ quotes
       ∧ isEstimate (σ w) = Some false.
Proof.
  intros Hall Hpref Hpromo Hin Hfirm.
  assert (quotes ≠ []) as Hne by (intros ->; by apply not_elem_of_nil in Hin).
  destruct (pickBestQuote_maximal σ preferPluginId promoCodes quotes Hne Hall)
    as (w & Hw & Hwin & Hmax).
  exists w. split; [done|]. split; [done|].
  specialize (Hmax firm Hin). unfold outranks, tier in Hmax.
  rewrite (Hpref w Hwin), (Hpref firm Hin), (Hpromo w Hwin), Hfirm in Hmax.
  simpl in Hmax.
  destruct (isEstimate (σ w)) as [[]|]; simpl in Hmax; [| done |];
    destruct (hasPromo σ promoCodes firm); lia.
Qed.


End PickBestQuoteTiers.

(** ** What [pickBestError] returns and when it throws *)

(** X5: whatever the failures, [pickBestError] either returns an element
    of the array whose rank is the largest of the array, or throws the
    [TypeError] of [reduce] on an empty array, or throws a [TypeError]
    reading [a.name] of [null], which happens exactly when the array
    starts with two [null]s.  In particular it returns on every
    non-empty array with at most one [null], and a [null] is returned
    only when every failure is [null]. *)
Theorem pickBestError_outcomes errors :
  match pickBestError errors with
  | Ok error =>
      error ∈ errors
      ∧ (∀ x, x ∈ errors → rankError x ≤ rankError error)
      ∧ (error = None → errors = [None])
  | Throw e =>
      (errors = []
       ∧ e = TypeError "Reduce of empty array with no initial value")
      ∨ (e = TypeError "Cannot read property 'name' of null"
         ∧ ∃ rest, errors = None :: None :: rest)
  end.
Proof.
  destruct errors as [|[ea|] errors].
  - by left.
  - destruct (reduce_from_pickBestError ea errors) as (e & Hred & Hin & Hmax).
    unfold pickBestError, reduce. rewrite Hred. done.
  - destruct errors as [|[eb|] errors].
    + simpl. split; [apply list_elem_of_here|]. split; [|done].
      by intros x ->%list_elem_of_singleton.
    + destruct (pickBestError_maximal (None :: Some eb :: errors))
        as (error & Hbest & Hin & Hmax); [done..|].
      rewrite Hbest. split; [done|]. split; [done|]. intros ->.
      specialize (Hmax (Some eb)
        ltac:(apply list_elem_of_further, list_elem_of_here)).
      pose proof (rankError_some eb). change (rankError None) with 0 in Hmax. lia.
    + right. split; [done|]. by exists errors.
Qed.

(** Between two failures the step keeps the smaller [nativeMin] of two
    below-limit errors and the larger [nativeMax] of two above-limit
    errors. *)
Lemma pickBestError_step_limits ea b e1 :
  pickBestError_step (Some ea) b = Ok (Some e1) →
  (∀ m1, kind e1 = SwapBelowLimitError m1 →
     (∀ ma, kind ea = SwapBelowLimitError ma → m1 ≤ ma)
     ∧ (∀ eb mb, b = Some eb → kind eb = SwapBelowLimitError mb → m1 ≤ mb))
  ∧ (∀ m1, kind e1 = SwapAboveLimitError m1 →
       (∀ ma, kind ea = SwapAboveLimitError ma → ma ≤ m1)
       ∧ (∀ eb mb, b = Some eb → kind eb = SwapAboveLimitError mb → mb ≤ m1)).
Proof.
  unfold pickBestError_step, biggystring.lt, biggystring.gt.
  destruct ea as [ka ma], b as [[kb mb]|]; destruct ka; try destruct kb;
    simpl; repeat case_decide; try lia; repeat case_bool_decide;
    intros [= <-]; simpl;
    (split; intros m1 Hm1; (split; [intros ? Ha|intros ? ? Hb Hkb]);
     simplify_eq/=; lia).
Qed.

Lemma reduce_from_pickBestError_limits errors ea e :
  reduce_from pickBestError_step (Some ea) errors = Ok (Some e) →
  (∀ m, kind e = SwapBelowLimitError m →
     ∀ x mx, Some x ∈ Some ea :: errors → kind x = SwapBelowLimitError mx → m ≤ mx)
  ∧ (∀ m, kind e = SwapAboveLimitError m →
       ∀ x mx, Some x ∈ Some ea :: errors → kind x = SwapAboveLimitError mx → mx ≤ m).
Proof.
  revert ea. induction errors as [|b errors IH]; intros ea Hred.
  - simpl in Hred. injection Hred as ->.
    split; intros m Hm x mx Hx Hkx; apply list_elem_of_singleton in Hx;
      simplify_eq; assert (m = mx) as -> by congruence; lia.
  - simpl in Hred.
    destruct (pickBestError_step_some ea b) as (e1 & Hstep & Hor & Hle1 & Hle2).
    rewrite Hstep in Hred. simpl in Hred.
    destruct (IH e1 Hred) as [IHmin IHmax].
    destruct (pickBestError_step_limits ea b e1 Hstep) as [Hmin Hmax].
    destruct (reduce_from_pickBestError e1 errors) as (e' & Hred' & _ & Hrank).
    rewrite Hred in Hred'. injection Hred' as <-.
    assert (rankError (Some e1) ≤ rankError (Some e)) as Hle
      by apply Hrank, list_elem_of_here.
    split.
    + intros m Hm x mx Hx Hkx.
      assert (∀ x', Some x' ∈ [Some ea; b] → kind x' = SwapBelowLimitError mx →
                    m ≤ mx) as Hhead.
      { intros x' Hx' Hkx'.
        assert (rankError (Some x') = 5) as Hr5 by (simpl; by rewrite Hkx').
        assert (rankError (Some e) = 5) as He5 by (simpl; by rewrite Hm).
        assert (rankError (Some x') ≤ rankError (Some e1)) as Hx1.
        { apply elem_of_cons in Hx' as [-> | ->%list_elem_of_singleton]; lia. }
        assert (∃ m1, kind e1 = SwapBelowLimitError m1) as [m1 Hm1].
        { destruct (kind e1) eqn:Hk1; eauto; exfalso;
            clear -Hr5 He5 Hx1 Hle Hk1; unfold rankError in *;
            rewrite Hk1 in *; simpl in *; lia. }
        assert (m ≤ m1) by (eapply IHmin; [done|apply list_elem_of_here|done]).
        destruct (Hmin m1 Hm1) as [Ha Hb].
        apply elem_of_cons in Hx' as [[= ->]|Hxb%list_elem_of_singleton].
        - specialize (Ha mx Hkx'). lia.
        - specialize (Hb x' mx (eq_sym Hxb) Hkx'). lia. }
      apply elem_of_cons in Hx as [Hx|[Hx|Hx]%elem_of_cons].
      * apply (Hhead x); [rewrite Hx; apply list_elem_of_here|done].
      * apply (Hhead x); [rewrite Hx; apply list_elem_of_further, list_elem_of_here|done].
      * eapply IHmin; [done|by apply list_elem_of_further|done].
    + intros m Hm x mx Hx Hkx.
      assert (∀ x', Some x' ∈ [Some ea; b] → kind x' = SwapAboveLimitError mx →
                    mx ≤ m) as Hhead.
      { intros x' Hx' Hkx'.
        assert (rankError (Some x') = 4) as Hr4 by (simpl; by rewrite Hkx').
        assert (rankError (Some e) = 4) as He4 by (simpl; by rewrite Hm).
        assert (rankError (Some x') ≤ rankError (Some e1)) as Hx1.
        { apply elem_of_cons in Hx' as [-> | ->%list_elem_of_singleton]; lia. }
        assert (∃ m1, kind e1 = SwapAboveLimitError m1) as [m1 Hm1].
        { destruct (kind e1) eqn:Hk1; eauto; exfalso;
            clear -Hr4 He4 Hx1 Hle Hk1; unfold rankError in *;
            rewrite Hk1 in *; simpl in *; lia. }
        assert (m1 ≤ m) by (eapply IHmax; [done|apply list_elem_of_here|done]).
        destruct (Hmax m1 Hm1) as [Ha Hb].
        apply elem_of_cons in Hx' as [[= ->]|Hxb%list_elem_of_singleton].
        - specialize (Ha mx Hkx'). lia.
        - specialize (Hb x' mx (eq_sym Hxb) Hkx'). lia. }
      apply elem_of_cons in Hx as [Hx|[Hx|Hx]%elem_of_cons].
      * apply (Hhead x); [rewrite Hx; apply list_elem_of_here|done].
      * apply (Hhead x); [rewrite Hx; apply list_elem_of_further, list_elem_of_here|done].
      * eapply IHmax; [done|by apply list_elem_of_further|done].
Qed.

Lemma pickBestError_limits errors e :
  pickBestError errors = Ok (Some e) →
  (∀ m, kind e = SwapBelowLimitError m →
     ∀ x mx, Some x ∈ errors → kind x = SwapBelowLimitError mx → m ≤ mx)
  ∧ (∀ m, kind e = SwapAboveLimitError m →
       ∀ x mx, Some x ∈ errors → kind x = SwapAboveLimitError mx → mx ≤ m).
Proof.
  intros Hbest. destruct errors as [|[ea|] errors]; [done| |].
  - by apply reduce_from_pickBestError_limits.
  - destruct errors as [|[eb|] errors]; [done| |done].
    unfold pickBestError, reduce in Hbest. simpl in Hbest.
    assert (pickBestError_step None (Some eb) = Ok (Some eb)) as Hstep.
    { unfold pickBestError_step. pose proof (rankError_some eb).
      change (rankError None) with 0.
      rewrite decide_False, decide_True by lia. done. }
    rewrite Hstep in Hbest. simpl in Hbest.
    destruct (reduce_from_pickBestError_limits errors eb e Hbest) as [Hmin Hmax].
    split; intros m Hm x mx Hx Hkx;
      apply elem_of_cons in Hx as [Hx|Hx]; try done;
      [eapply Hmin|eapply Hmax]; done.
Qed.

(** X6: when the failure that [pickBestError] returns is a below-limit
    error, its [nativeMin] is the smallest of all the below-limit errors
    of the array, not only of the two it was last compared with. *)
Theorem pickBestError_smallest_min errors e m x mx :
  pickBestError errors = Ok (Some e) →
  kind e = SwapBelowLimitError m →
  Some x ∈ errors →
  kind x = SwapBelowLimitError mx →
  m ≤ mx.
Proof.
  intros Hbest Hm Hx Hkx.
  destruct (pickBestError_limits errors e Hbest) as [Hmin _]. by eapply Hmin.
Qed.

(** X7: when the failure that [pickBestError] returns is an above-limit
    error, its [nativeMax] is the largest of all the above-limit errors
    of the array. *)
Theorem pickBestError_largest_max errors e m x mx :
  pickBestError errors = Ok (Some e) →
  kind e = SwapAboveLimitError m →
  Some x ∈ errors →
  kind x = SwapAboveLimitError mx →
  mx ≤ m.
Proof.
  intros Hbest Hm Hx Hkx.
  destruct (pickBestError_limits errors e Hbest) as [_ Hmax]. by eapply Hmax.
Qed.

(** ** [fetchSwapQuote] from end to end *)

Section FetchSwapQuoteOutcomes.
Context {EdgeSwapRequest JsonObject : Type}.
Variable σ : store.
Variable swapPlugins : gmap string EdgeSwapPlugin.
Variable account : @AccountState JsonObject.
Variable fuzzyTimeout :
  list (@FetchCall EdgeSwapRequest JsonObject) → list ref + list (option SwapError).
Variable close : ref → settled.
Variable request : EdgeSwapRequest.

Local Abbreviation run opts :=
  (fetchSwapQuote σ swapPlugins account fuzzyTimeout close request opts).
Local Abbreviation promisesOf opts :=
  (startRequests swapPlugins account request
     (upgradeOptions opts).1 (upgradeOptions opts).2).

Lemma length_lt_1_nil {A} (l : list A) : (length l < 1)%nat ↔ l = [].
Proof. destruct l; simpl; split; (done || lia). Qed.

(** The three ways [fetchSwapQuote] can go. *)
Lemma fetchSwapQuote_unfold opts :
  run opts
  = if decide (promisesOf opts = []) then
      ([], Throw (Error "No swap providers enabled"))
    else
      match fuzzyTimeout (promisesOf opts) with
      | inl quotes =>
          ((Fetch <$> promisesOf opts)
             ++ (onQuotes (EdgeSwapRequest := EdgeSwapRequest) (JsonObject := JsonObject)
                   σ swapPlugins close (opt_preferPluginId opts)
                   (upgradeOptions opts).2 quotes).1,
           (onQuotes (EdgeSwapRequest := EdgeSwapRequest) (JsonObject := JsonObject)
                   σ swapPlugins close (opt_preferPluginId opts)
              (upgradeOptions opts).2 quotes).2)
      | inr errors => (Fetch <$> promisesOf opts, onErrors errors)
      end.
Proof.
  unfold fetchSwapQuote. destruct (upgradeOptions opts) as [disabled promoCodes].
  simpl. case_bool_decide as Hlen; rewrite length_lt_1_nil in Hlen.
  - rewrite decide_True by done. by rewrite Hlen.
  - rewrite decide_False by done.
    destruct (fuzzyTimeout _); [|done]. by destruct (onQuotes _ _ _ _ _ _).
Qed.

(** The log of the rejection handler goes through when no failure is
    [null], and throws on the first [null]. *)
Lemma logRejected_ok errors : Forall is_Some errors → logRejected errors = Ok tt.
Proof. induction 1 as [|? errors [e ->] _ IH]; [done|]. by simpl. Qed.

Lemma logRejected_null errors :
  None ∈ errors →
  logRejected errors = Throw (TypeError "Cannot destructure property 'name' of null").
Proof.
  induction errors as [|[e|] errors IH]; [by intros ?%not_elem_of_nil| |done].
  intros [?|Hin]%elem_of_cons; [done|]. by apply IH.
Qed.

(** X8: when every plugin fails.  If the loop started at least one
    request and [fuzzyTimeout] rejects with a non-empty array of
    failures, the plugins were called and [close] was called on nothing.
    When no failure is [null], [fetchSwapQuote] rejects with one failure
    of the array, of the largest rank in the array.  When some failure
    is [null] (or [undefined]), the destructuring in the handler's log
    statement throws, and [fetchSwapQuote] rejects with that [TypeError]
    instead of any of the failures. *)
Theorem fetchSwapQuote_all_rejected opts errors :
  promisesOf opts ≠ [] →
  fuzzyTimeout (promisesOf opts) = inr errors →
  errors ≠ [] →
  (Forall is_Some errors →
   ∃ error,
     run opts = (Fetch <$> promisesOf opts, Throw (Rejection (Some error)))
     ∧ Some error ∈ errors
     ∧ ∀ x, x ∈ errors → rankError x ≤ rankError (Some error))
  ∧ (None ∈ errors →
     run opts
     = (Fetch <$> promisesOf opts,
        Throw (TypeError "Cannot destructure property 'name' of null")))
  ∧ closedQuotes (run opts).1 = [].
Proof.
  intros Hstarted Hsettle Hne.
  rewrite fetchSwapQuote_unfold, decide_False, Hsettle by done.
  unfold onErrors. split; [|split].
  - intros Hsome. rewrite (logRejected_ok errors Hsome).
    destruct (pickBestError_maximal errors Hne) as (error & Hbest & Hin & Hmax).
    { intros rest ->. apply Forall_cons in Hsome as [[? [=]] _]. }
    destruct error as [error|].
    + exists error. by rewrite Hbest.
    + apply Forall_forall with (x := None) in Hsome as [? [=]]. done.
  - intros Hnull. by rewrite (logRejected_null errors Hnull).
  - apply closedQuotes_fetch.
Qed.



(** X13: both ways of disabling a plugin work.  A plugin with a [true]
    entry in the flat [opts.disabled] map, or whose entry in the
    deprecated [opts.plugins] map has a true [disabled] flag, is never
    called, whatever the account settings say. *)
Theorem fetchSwapQuote_skips_disabled opts (P : string) :
  default ∅ (opt_disabled opts) !! P = Some true
  ∨ (∃ entry, default ∅ (opt_plugins opts) !! P = Some entry
              ∧ plugin_disabled entry = Some true) →
  P ∉ fetchedIds (run opts).1.
Proof.
  intros Hdisabled. rewrite fetchSwapQuote_fetchedIds.
  intros [Hsel _]%list_elem_of_filter. apply Is_true_true, selected_true in Hsel.
  destruct Hsel as [_ Hnot]. apply not_true_iff_false in Hnot. apply Hnot.
  apply isDisabled_true. left. rewrite upgradeOptions_fold.
  destruct (upgradeOptions_fold_lookup (default ∅ (opt_plugins opts))
    (default ∅ (opt_disabled opts)) (default ∅ (opt_promoCodes opts)) P) as [-> _].
  destruct Hdisabled as [Hflat|(entry & -> & Hflag)].
  - destruct (default ∅ (opt_plugins opts) !! P) as [entry|]; [|done].
    by destruct (truthy (plugin_disabled entry)).
  - by rewrite Hflag.
Qed.

(** X10: what a returned quote is.  Whenever [fetchSwapQuote] returns a
    quote, the loop had started at least one request, [fuzzyTimeout] had
    resolved with an array of quotes, and the returned object is the
    upgrade of the element of that array that [pickBestQuote] selects:
    it spreads that quote, its [pluginId] is the quote's [pluginId], or
    its [pluginName] when that is unset, its [isEstimate] is [true]
    unless the quote says [false], and [close] has been called on
    exactly the other slots of the array.  The [pluginId] names a plugin
    of the registry, or else it is a name that the registry object
    inherits, the quote has no [quoteId] and the result has no
    [quoteUri]. *)
Theorem fetchSwapQuote_returned_quote opts trace public :
  run opts = (trace, Ok public) →
  ∃ quotes bestQuote,
    promisesOf opts ≠ []
    ∧ fuzzyTimeout (promisesOf opts) = inl quotes
    ∧ pickBestQuote σ (opt_preferPluginId opts) (upgradeOptions opts).2 quotes
      = Ok bestQuote
    ∧ bestQuote ∈ quotes
    ∧ quote_spread public = σ bestQuote
    ∧ quote_pluginId public
      = default (pluginName (σ bestQuote)) (pluginId (σ bestQuote))
    ∧ (is_Some (swapPlugins !! quote_pluginId public)
       ∨ (swapPlugins !! quote_pluginId public = None
          ∧ inherited (quote_pluginId public) = true
          ∧ quoteId (σ bestQuote) = None
          ∧ quote_quoteUri public = None))
    ∧ quote_isEstimate public = default true (isEstimate (σ bestQuote))
    ∧ closedQuotes trace = filter (λ quote, quote ≠ bestQuote) quotes.
Proof.
  rewrite fetchSwapQuote_unfold. case_decide as Hstarted; [done|].
  destruct (fuzzyTimeout _) as [quotes|errors] eqn:Hsettle.
  2: { unfold onErrors. destruct (logRejected errors); [|done].
       by destruct (pickBestError errors). }
  unfold onQuotes.
  destruct (pickBestQuote _ _ _ quotes) as [bestQuote|e] eqn:Hbest; [|done].
  simpl. intros [= <- Hup]. exists quotes, bestQuote.
  assert (bestQuote ∈ quotes) as Hin.
  { unfold pickBestQuote, reduce in Hbest. destruct quotes as [|a quotes]; [done|].
    pose proof (reduce_from_pickBestQuote_cases σ (opt_preferPluginId opts)
                  (upgradeOptions opts).2 quotes a) as Hcases.
    by rewrite Hbest in Hcases. }
  assert (closedQuotes
            ((Fetch <$> promisesOf opts)
               ++ closeUnused (EdgeSwapRequest := EdgeSwapRequest)
                    (JsonObject := JsonObject) close bestQuote quotes)
          = filter (λ quote, quote ≠ bestQuote) quotes) as Hclosed.
  { by rewrite closedQuotes_app, closedQuotes_fetch, closeUnused_filter,
      closedQuotes_close. }
  unfold upgradeQuote in Hup.
  destruct (swapPlugins !! default (pluginName (σ bestQuote)) (pluginId (σ bestQuote)))
    as [plugin|] eqn:Hplugin.
  - injection Hup as <-. simpl.
    split; [done|]. split; [done|]. split; [done|]. split; [done|].
    split; [done|]. split; [done|]. split; [left; by eexists|]. done.
  - destruct (inherited (default (pluginName (σ bestQuote)) (pluginId (σ bestQuote))))
      eqn:Hproto; [|done].
    destruct (quoteId (σ bestQuote)) eqn:Hquote; [done|].
    injection Hup as <-. simpl.
    split; [done|]. split; [done|]. split; [done|]. split; [done|].
    split; [done|]. split; [done|]. split; [by right|]. done.
Qed.

(** X11: a winner from an unknown plugin.  If the quote that
    [pickBestQuote] selects resolves to a plugin id that is not in the
    registry (nor a name that the registry object inherits, under which
    the lookup would find a function), [fetchSwapQuote] closes every
    other slot of the array and then [upgradeQuote] throws a
    [TypeError]: the best quote is neither returned nor closed. *)
Theorem fetchSwapQuote_unknown_plugin opts quotes bestQuote :
  promisesOf opts ≠ [] →
  fuzzyTimeout (promisesOf opts) = inl quotes →
  pickBestQuote σ (opt_preferPluginId opts) (upgradeOptions opts).2 quotes
  = Ok bestQuote →
  swapPlugins !! default (pluginName (σ bestQuote)) (pluginId (σ bestQuote)) = None →
  inherited (default (pluginName (σ bestQuote)) (pluginId (σ bestQuote))) = false →
  run opts
  = ((Fetch <$> promisesOf opts)
       ++ ((λ quote, Close quote Fulfilled)
             <$> filter (λ quote, quote ≠ bestQuote) quotes),
     Throw (TypeError "Cannot destructure property 'swapInfo' of undefined"))
  ∧ bestQuote ∉ closedQuotes (run opts).1.
Proof.
  intros Hstarted Hsettle Hbest Hplugin Hown.
  rewrite fetchSwapQuote_unfold, decide_False, Hsettle by done.
  unfold onQuotes. rewrite Hbest. simpl. rewrite closeUnused_filter.
  unfold upgradeQuote. rewrite Hplugin, Hown. split; [done|].
  rewrite closedQuotes_app, closedQuotes_fetch, closedQuotes_close. simpl.
  intros [Hne _]%list_elem_of_filter. done.
Qed.

End FetchSwapQuoteOutcomes.

(** ** The upgrade of the options, twice *)

(** The two maps after the upgrade, entry by entry, from the options. *)
Lemma upgradeOptions_lookup opts id :
  (upgradeOptions opts).1 !! id
  = match default ∅ (opt_plugins opts) !! id with
    | Some entry =>
        if truthy (plugin_disabled entry) then Some true
        else default ∅ (opt_disabled opts) !! id
    | None => default ∅ (opt_disabled opts) !! id
    end
  ∧ (upgradeOptions opts).2 !! id
    = match default ∅ (opt_plugins opts) !! id with
      | Some entry =>
          from_option Some (default ∅ (opt_promoCodes opts) !! id)
            (plugin_promoCode entry)
      | None => default ∅ (opt_promoCodes opts) !! id
      end.
Proof. rewrite upgradeOptions_fold. apply upgradeOptions_fold_lookup. Qed.

(** X12: upgrading the options is idempotent.  Running the upgrade on
    the [opts] object that a first run has left behind gives the same two
    maps again and leaves the object as it is, so the same options
    object can be passed to [fetchSwapQuote] any number of times. *)
Theorem upgradeOptions_idempotent opts :
  upgradeOptions (opts_after_upgrade opts) = upgradeOptions opts
  ∧ opts_after_upgrade (opts_after_upgrade opts) = opts_after_upgrade opts.
Proof.
  assert (upgradeOptions (opts_after_upgrade opts) = upgradeOptions opts) as Hsame.
  { rewrite (surjective_pairing (upgradeOptions (opts_after_upgrade opts))),
      (surjective_pairing (upgradeOptions opts)).
    f_equal; apply map_eq; intros id;
      destruct (upgradeOptions_lookup (opts_after_upgrade opts) id) as [Hd2 Hp2];
      destruct (upgradeOptions_lookup opts id) as [Hd1 Hp1];
      simpl in Hd2, Hp2.
    - rewrite Hd2. destruct (opt_disabled opts) as [d|] eqn:Hd0; simpl.
      + rewrite Hd1.
        destruct (default ∅ (opt_plugins opts) !! id) as [entry|]; [|done].
        by destruct (truthy (plugin_disabled entry)).
      + by rewrite Hd1.
    - rewrite Hp2. destruct (opt_promoCodes opts) as [p|] eqn:Hp0; simpl.
      + rewrite Hp1.
        destruct (default ∅ (opt_plugins opts) !! id) as [entry|]; [|done].
        by destruct (plugin_promoCode entry).
      + by rewrite Hp1. }
  split; [done|].
  unfold opts_after_upgrade at 1. rewrite Hsame. unfold opts_after_upgrade. simpl.
  by destruct (opt_disabled opts), (opt_promoCodes opts).
Qed.

(** ** Instances of the further properties *)

Lemma pickBestQuote_leftmost_best_witness :
  ∃ before after,
    [0; 1; 2; 3]%nat = before ++ 1%nat :: after
    ∧ (∀ q, q ∈ before →
            pickBestQuote_step exampleMixedQuotes None ∅ q 1 = Ok 1%nat ∧ q ≠ 1%nat)
    ∧ (∀ q, q ∈ after →
            pickBestQuote_step exampleMixedQuotes None ∅ 1 q = Ok 1%nat).
Proof.
  apply (pickBestQuote_leftmost_best exampleMixedQuotes None ∅ [0; 1; 2; 3]%nat 1%nat).
  - repeat constructor; vm_compute; discriminate.
  - by vm_compute.
Defined.

Lemma pickBestQuote_firm_over_estimate_witness :
  ∃ w, pickBestQuote exampleMixedQuotes None ∅ [0; 1; 2; 3]%nat = Ok w
       ∧ w ∈ [0; 1; 2; 3]%nat
       ∧ isEstimate (exampleMixedQuotes w) = Some false.
Proof.
  apply (pickBestQuote_firm_over_estimate exampleMixedQuotes None ∅
           [0; 1; 2; 3]%nat 2%nat).
  - repeat constructor; vm_compute; discriminate.
  - intros q _. apply isPreferred_undefined.
  - intros q Hq.
    repeat (apply elem_of_cons in Hq as [->|Hq]; [by vm_compute|]).
    by apply not_elem_of_nil in Hq.
  - do 2 apply list_elem_of_further. apply list_elem_of_here.
  - reflexivity.
Defined.


Lemma pickBestError_smallest_min_witness :
  pickBestError exampleErrors = Ok (exampleError (SwapBelowLimitError 50))
  ∧ 50 ≤ 100.
Proof.
  split; [by vm_compute|].
  apply (pickBestError_smallest_min exampleErrors
           {| kind := SwapBelowLimitError 50; message := "" |} 50
           {| kind := SwapBelowLimitError 100; message := "" |} 100).
  - by vm_compute.
  - reflexivity.
  - do 2 apply list_elem_of_further. apply list_elem_of_here.
  - reflexivity.
Defined.

Lemma pickBestError_largest_max_witness :
  pickBestError exampleAboveErrors = Ok (exampleError (SwapAboveLimitError 9))
  ∧ 8 ≤ 9.
Proof.
  split; [by vm_compute|].
  apply (pickBestError_largest_max exampleAboveErrors
           {| kind := SwapAboveLimitError 9; message := "" |} 9
           {| kind := SwapAboveLimitError 8; message := "" |} 8).
  - by vm_compute.
  - reflexivity.
  - do 4 apply list_elem_of_further. apply list_elem_of_here.
  - reflexivity.
Defined.

Lemma fetchSwapQuote_all_rejected_witness :
  ∃ error,
    fetchSwapQuote (EdgeSwapRequest := unit) exampleQuotes examplePlugins
      exampleAccount (λ _, inr exampleRejections) (λ _, Rejected) tt optsEmpty
    = (Fetch <$> startRequests examplePlugins exampleAccount tt
                   (upgradeOptions optsEmpty).1 (upgradeOptions optsEmpty).2,
       Throw (Rejection (Some error)))
    ∧ Some error ∈ exampleRejections
    ∧ ∀ x, x ∈ exampleRejections → rankError x ≤ rankError (Some error).
Proof.
  destruct (fetchSwapQuote_all_rejected (EdgeSwapRequest := unit) exampleQuotes
              examplePlugins exampleAccount (λ _, inr exampleRejections)
              (λ _, Rejected) tt optsEmpty exampleRejections) as (Hsome & _).
  - vm_compute. discriminate.
  - reflexivity.
  - discriminate.
  - apply Hsome. repeat constructor; by eexists.
Defined.


Lemma fetchSwapQuote_skips_disabled_witness :
  "y" ∉ fetchedIds
          (fetchSwapQuote (EdgeSwapRequest := unit) exampleQuotes examplePlugins
             exampleAccount (λ _, inl [0; 1]%nat) (λ _, Rejected) tt optsLegacy).1.
Proof.
  apply (fetchSwapQuote_skips_disabled (EdgeSwapRequest := unit) exampleQuotes
           examplePlugins exampleAccount (λ _, inl [0; 1]%nat) (λ _, Rejected)
           tt optsLegacy "y").
  right. exists {| plugin_disabled := Some true; plugin_promoCode := None |}.
  split; [by vm_compute|done].
Defined.

Lemma fetchSwapQuote_returned_quote_witness :
  ∃ quotes bestQuote,
    startRequests examplePlugins exampleAccount tt
      (upgradeOptions optsEmpty).1 (upgradeOptions optsEmpty).2 ≠ []
    ∧ (λ _ : list (@FetchCall unit unit),
         (inl [0; 1; 2]%nat : list ref + list (option SwapError)))
        (startRequests examplePlugins exampleAccount tt
           (upgradeOptions optsEmpty).1 (upgradeOptions optsEmpty).2)
      = inl quotes
    ∧ pickBestQuote exampleQuotes (opt_preferPluginId optsEmpty)
        (upgradeOptions optsEmpty).2 quotes = Ok bestQuote
    ∧ bestQuote ∈ quotes
    ∧ firmQuote "y" 30 10 = exampleQuotes bestQuote
    ∧ "y" = default (pluginName (exampleQuotes bestQuote))
              (pluginId (exampleQuotes bestQuote))
    ∧ (is_Some (examplePlugins !! "y")
       ∨ (examplePlugins !! "y" = None
          ∧ inherited "y" = true
          ∧ quoteId (exampleQuotes bestQuote) = None
          ∧ (None : option string) = None))
    ∧ false = default true (isEstimate (exampleQuotes bestQuote))
    ∧ closedQuotes
        (fetchSwapQuote (EdgeSwapRequest := unit) exampleQuotes examplePlugins
           exampleAccount (λ _, inl [0; 1; 2]%nat) (λ _, Rejected) tt optsEmpty).1
      = filter (λ quote, quote ≠ bestQuote) quotes.
Proof.
  apply (fetchSwapQuote_returned_quote (EdgeSwapRequest := unit) exampleQuotes
           examplePlugins exampleAccount (λ _, inl [0; 1; 2]%nat) (λ _, Rejected)
           tt optsEmpty
           (fetchSwapQuote (EdgeSwapRequest := unit) exampleQuotes examplePlugins
              exampleAccount (λ _, inl [0; 1; 2]%nat) (λ _, Rejected) tt optsEmpty).1
           {| quote_spread := firmQuote "y" 30 10; quote_isEstimate := false;
              quote_pluginId := "y"; quote_quoteUri := None |}).
  by vm_compute.
Defined.

Lemma fetchSwapQuote_unknown_plugin_witness :
  fetchSwapQuote (EdgeSwapRequest := unit) exampleForeignQuotes examplePlugins
    exampleAccount (λ _, inl [0; 1]%nat) (λ _, Rejected) tt optsEmpty
  = ((Fetch <$> startRequests examplePlugins exampleAccount tt
                  (upgradeOptions optsEmpty).1 (upgradeOptions optsEmpty).2)
       ++ ((λ quote, Close quote Fulfilled)
             <$> filter (λ quote, quote ≠ 1%nat) [0; 1]%nat),
     Throw (TypeError "Cannot destructure property 'swapInfo' of undefined"))
  ∧ 1%nat ∉ closedQuotes
              (fetchSwapQuote (EdgeSwapRequest := unit) exampleForeignQuotes
                 examplePlugins exampleAccount (λ _, inl [0; 1]%nat)
                 (λ _, Rejected) tt optsEmpty).1.
Proof.
  apply (fetchSwapQuote_unknown_plugin (EdgeSwapRequest := unit)
           exampleForeignQuotes examplePlugins exampleAccount
           (λ _, inl [0; 1]%nat) (λ _, Rejected) tt optsEmpty [0; 1]%nat 1%nat).
  - vm_compute. discriminate.
  - reflexivity.
  - by vm_compute.
  - by vm_compute.
  - by vm_compute.
Defined.

(** ** Ties between failures of the same rank *)

(** Outside the two limit classes the step keeps its left operand unless
    the right one ranks strictly higher. *)
Lemma pickBestError_step_left ea b e1 :
  pickBestError_step (Some ea) b = Ok (Some e1) →
  rankError (Some e1) ≠ 4 → rankError (Some e1) ≠ 5 →
  (e1 = ea ∧ rankError b ≤ rankError (Some ea))
  ∨ (b = Some e1 ∧ rankError (Some ea) < rankError b).
Proof.
  unfold pickBestError_step. intros Hstep H4 H5. revert Hstep.
  destruct (decide (0 < rankError (Some ea) - rankError b)) as [Hgt|Hgt].
  { intros [= ->]. left. split; [done|lia]. }
  destruct (decide (rankError (Some ea) - rankError b < 0)) as [Hlt|Hlt].
  { intros [= ->]. right. split; [done|lia]. }
  intros Hstep. left. split; [|lia].
  destruct (kind ea) eqn:Hka; try (by injection Hstep as ->).
  - destruct b as [[[] ?]|]; try done. exfalso.
    destruct (biggystring.lt _ _); injection Hstep as <-;
      simpl in H4, H5; rewrite ?Hka in H5; lia.
  - destruct b as [[[] ?]|]; try done. exfalso.
    destruct (biggystring.gt _ _); injection Hstep as <-;
      simpl in H4, H5; rewrite ?Hka in H4; lia.
Qed.

Lemma reduce_from_pickBestError_first errors ea e :
  reduce_from pickBestError_step (Some ea) errors = Ok (Some e) →
  rankError (Some e) ≠ 4 → rankError (Some e) ≠ 5 →
  ∃ before after,
    Some ea :: errors = before ++ Some e :: after
    ∧ ∀ x, x ∈ before → rankError x < rankError (Some e).
Proof.
  revert ea. induction errors as [|b errors IH]; intros ea Hred H4 H5.
  - simpl in Hred. injection Hred as ->. exists [], [].
    split; [done|]. by intros x ?%not_elem_of_nil.
  - simpl in Hred.
    destruct (pickBestError_step_some ea b) as (e1 & Hstep & _ & Hle1 & Hle2).
    rewrite Hstep in Hred. simpl in Hred.
    destruct (IH e1 Hred H4 H5) as (l1 & l2 & Hsplit & Hl1).
    destruct l1 as [|x1 l1].
    + simpl in Hsplit. injection Hsplit as -> <-.
      destruct (pickBestError_step_left ea b e Hstep H4 H5) as [[-> Hb]|[-> Hb]].
      * exists [], (b :: errors). split; [done|]. by intros x ?%not_elem_of_nil.
      * exists [Some ea], errors. split; [done|].
        by intros x ->%list_elem_of_singleton.
    + simpl in Hsplit. injection Hsplit as <- ->.
      assert (rankError (Some e1) < rankError (Some e)) as Hlt
        by apply Hl1, list_elem_of_here.
      exists (Some ea :: b :: l1), l2. split; [done|].
      intros x [->|[->|Hx]%elem_of_cons]%elem_of_cons; [lia|lia|].
      by apply Hl1, list_elem_of_further.
Qed.

(** X15: ties keep the first failure.  When the failure that
    [pickBestError] returns is not a limit error (its rank is neither 4
    nor 5), it is the first element of the array with the largest rank:
    every failure before it ranks strictly lower.  So of an
    [InsufficientFundsError] and a [PendingFundsError], both of rank 6,
    the one that comes first in the array is reported. *)
Theorem pickBestError_first_of_top_rank errors error :
  pickBestError errors = Ok error →
  rankError error ≠ 4 → rankError error ≠ 5 →
  ∃ before after,
    errors = before ++ error :: after
    ∧ ∀ x, x ∈ before → rankError x < rankError error.
Proof.
  intros Hbest H4 H5. destruct errors as [|[ea|] errors]; [done| |].
  - unfold pickBestError, reduce in Hbest.
    destruct (reduce_from_pickBestError ea errors) as (e & Hred & _).
    rewrite Hred in Hbest. injection Hbest as <-.
    by apply reduce_from_pickBestError_first.
  - destruct errors as [|[eb|] errors].
    + injection Hbest as <-. exists [], []. split; [done|].
      by intros x ?%not_elem_of_nil.
    + unfold pickBestError, reduce in Hbest. simpl in Hbest.
      assert (pickBestError_step None (Some eb) = Ok (Some eb)) as Hstep.
      { unfold pickBestError_step. pose proof (rankError_some eb).
        change (rankError None) with 0.
        rewrite decide_False, decide_True by lia. done. }
      rewrite Hstep in Hbest. simpl in Hbest.
      destruct (reduce_from_pickBestError eb errors) as (e & Hred & _).
      rewrite Hred in Hbest. injection Hbest as <-.
      destruct (reduce_from_pickBestError_first errors eb e Hred H4 H5)
        as (l1 & l2 & Hsplit & Hl1).
      exists (None :: l1), l2. split; [by rewrite Hsplit|].
      intros x [->|Hx]%elem_of_cons; [|by apply Hl1].
      pose proof (rankError_some e). change (rankError None) with 0. lia.
    + done.
Qed.

Lemma pickBestError_first_of_top_rank_witness :
  ∃ before after,
    exampleFundsErrors
    = before ++ Some {| kind := PendingFundsError; message := "pending" |} :: after
    ∧ ∀ x, x ∈ before →
           rankError x
           < rankError (Some {| kind := PendingFundsError; message := "pending" |}).
Proof.
  apply (pickBestError_first_of_top_rank exampleFundsErrors
           (Some {| kind := PendingFundsError; message := "pending" |})).
  - by vm_compute.
  - by vm_compute.
  - by vm_compute.
Defined.

(** ** The preferred plugin, from end to end *)

(** X14: the preferred plugin wins the whole call.  If
    [opts.preferPluginId] is set, [fuzzyTimeout] resolves with an array
    that holds a quote whose [pluginName] is that id, every quote of the
    array has a non-zero [fromNativeAmount], and the plugins of the
    quotes are in the registry, then [fetchSwapQuote] returns the
    upgrade of a quote with that [pluginName], whatever the other quotes
    offer and whatever [close] does. *)
Theorem fetchSwapQuote_returns_preferred {EdgeSwapRequest JsonObject : Type}
    σ swapPlugins (account : @AccountState JsonObject)
    (fuzzyTimeout : list (@FetchCall EdgeSwapRequest JsonObject)
                    → list ref + list (option SwapError))
    close (request : EdgeSwapRequest) opts (prefer : string) quotes p :
  let promises :=
    startRequests swapPlugins account request
      (upgradeOptions opts).1 (upgradeOptions opts).2 in
  opt_preferPluginId opts = Some prefer →
  promises ≠ [] →
  fuzzyTimeout promises = inl quotes →
  Forall (wellFormed σ) quotes →
  (∀ q, q ∈ quotes →
        is_Some (swapPlugins !! default (pluginName (σ q)) (pluginId (σ q)))) →
  p ∈ quotes →
  pluginName (σ p) = prefer →
  ∃ trace public,
    fetchSwapQuote σ swapPlugins account fuzzyTimeout close request opts
    = (trace, Ok public)
    ∧ pluginName (quote_spread public) = prefer.
Proof.
  cbv zeta. intros Hprefer Hstarted Hsettle Hall Hregistry Hp Hname.
  assert (quotes ≠ []) as Hne by (intros ->; by apply not_elem_of_nil in Hp).
  destruct (pickBestQuote_maximal σ (Some prefer) (upgradeOptions opts).2 quotes
              Hne Hall) as (w & Hw & Hwin & Hmax).
  assert (pluginName (σ w) = prefer) as Hwname.
  { assert (tier σ (Some prefer) (upgradeOptions opts).2 p = 4) as Hp4.
    { apply tier_preferred. unfold isPreferred. apply bool_decide_eq_true.
      by rewrite Hname. }
    assert (tier σ (Some prefer) (upgradeOptions opts).2 w = 4) as Hw4.
    { specialize (Hmax p Hp). unfold outranks in Hmax.
      pose proof (tier_range σ (Some prefer) (upgradeOptions opts).2 w). lia. }
    apply tier_preferred in Hw4. unfold isPreferred in Hw4.
    apply bool_decide_eq_true in Hw4. congruence. }
  destruct (Hregistry w Hwin) as [plugin Hplugin].
  rewrite fetchSwapQuote_unfold, decide_False, Hsettle, Hprefer by done.
  unfold onQuotes. rewrite Hw. simpl. unfold upgradeQuote. rewrite Hplugin.
  eexists _, _. split; [done|]. done.
Qed.

Lemma fetchSwapQuote_returns_preferred_witness :
  ∃ trace public,
    fetchSwapQuote (EdgeSwapRequest := unit) exampleQuotes examplePlugins
      exampleAccount (λ _, inl [1; 0; 2]%nat) (λ _, Rejected) tt optsPreferX
    = (trace, Ok public)
    ∧ pluginName (quote_spread public) = "x".
Proof.
  apply (fetchSwapQuote_returns_preferred (EdgeSwapRequest := unit) exampleQuotes
           examplePlugins exampleAccount (λ _, inl [1; 0; 2]%nat) (λ _, Rejected)
           tt optsPreferX "x" [1; 0; 2]%nat 0%nat).
  - reflexivity.
  - vm_compute. discriminate.
  - reflexivity.
  - repeat constructor; vm_compute; discriminate.
  - intros q Hq.
    repeat (apply elem_of_cons in Hq as [->|Hq]; [vm_compute; by eauto|]).
    by apply not_elem_of_nil in Hq.
  - apply list_elem_of_further, list_elem_of_here.
  - reflexivity.
Defined.
